(** * The DOL header loader: decoder, BSS carving and layout validator

    A shallow embedding of [parseSections], [parseHeader], [validateHeader]
    and [DOLView.is_valid_for_data] of [__init__.py], with the properties
    of the header decoder, the BSS carving sweep and the validator.

    Conventions.
    - Python integers are unbounded, so every number is a [Z] and no
      addition wraps; values read by [struct.unpack(">L")] lie in
      [0, 2^32).
    - A byte buffer is a [list byte]; [data[a:b]] is [slice data a b].
    - A Python exception ([struct.error], [IndexError], [KeyError]) is the
      result [None].
    - [list.sort(key = ...)] is a stable sort; [sort_by] is the stable
      insertion sort, which returns the same list as any stable sort. *)

From Stdlib Require Import ZArith List Bool Lia Strings.Byte.
From Stdlib Require Import Sorting.Sorted Sorting.Permutation.
From stdpp Require Import base option list gmap strings pretty.
Import ListNotations.
Local Open Scope Z_scope.

(** ** Data model *)

(** An initialized section: the dict [{"offset", "address", "size"}]. *)
Record Section : Type := mkSection {
  offset : Z;
  address : Z;
  size : Z
}.

(** A BSS section: the dict [{"address", "size"}] (no ["offset"] key). *)
Record BssSection : Type := mkBss {
  bss_address : Z;
  bss_size : Z
}.

(** The dict returned by [parseHeader]. *)
Record Header : Type := mkHeader {
  textSections : list Section;
  dataSections : list Section;
  bssSections : list BssSection;
  entrypoint : Z
}.

(** An element of [allSections]: either kind of dict, read through its
    ["address"] and ["size"] keys only. *)
Inductive AnySection : Type :=
  | Initialized (s : Section)
  | Uninitialized (b : BssSection).

Definition any_address (s : AnySection) : Z :=
  match s with
  | Initialized i => address i
  | Uninitialized b => bss_address b
  end.

Definition any_size (s : AnySection) : Z :=
  match s with
  | Initialized i => size i
  | Uninitialized b => bss_size b
  end.

(** [section["offset"]]: a [KeyError] on a BSS dict. *)
Definition any_offset (s : AnySection) : option Z :=
  match s with
  | Initialized i => Some (offset i)
  | Uninitialized _ => None
  end.

(** ** Byte buffers and [struct.unpack] *)

(** [data[lo:hi]]: a slice is cut short, never an error. *)
Definition slice (data : list byte) (lo hi : nat) : list byte :=
  firstn (hi - lo) (skipn lo data).

Definition byte_val (b : byte) : Z := Z.of_N (Byte.to_N b).

(** One big-endian unsigned 32-bit integer. *)
Definition be32 (b0 b1 b2 b3 : byte) : Z :=
  ((byte_val b0 * 256 + byte_val b1) * 256 + byte_val b2) * 256 + byte_val b3.

(** [struct.unpack(">nL", bs)]: [struct.error] unless [bs] has exactly
    [4 * n] bytes. *)
Fixpoint unpack_L (n : nat) (bs : list byte) : option (list Z) :=
  match n, bs with
  | O, [] => Some []
  | S n', b0 :: b1 :: b2 :: b3 :: rest =>
      match unpack_L n' rest with
      | Some vs => Some (be32 b0 b1 b2 b3 :: vs)
      | None => None
      end
  | _, _ => None
  end.

(** [struct.unpack(">L", bs)[0]]. *)
Definition unpack_L0 (bs : list byte) : option Z :=
  match unpack_L 1 bs with
  | Some (v :: _) => Some v
  | _ => None
  end.

(** ** Stable sort by key *)

Section SortBy.
Context {A : Type} (key : A -> Z).

Fixpoint insert_by (x : A) (l : list A) : list A :=
  match l with
  | [] => [x]
  | y :: l' => if key y <? key x then y :: insert_by x l' else x :: y :: l'
  end.

Fixpoint sort_by (l : list A) : list A :=
  match l with
  | [] => []
  | x :: l' => insert_by x (sort_by l')
  end.
End SortBy.

(** ** parseSections *)

(** The loop [for i in range(len(offsets))] with its [break]; [idxs] is
    what is left of the range and [sections] the list built so far. *)
Fixpoint parseSections_loop (offsets addresses sizes : list Z)
    (idxs : list nat) (sections : list Section) : option (list Section) :=
  match idxs with
  | [] => Some sections
  | i :: idxs' =>
      match offsets !! i with
      | None => None
      | Some o =>
          if o =? 0 then Some sections
          else
            match addresses !! i, sizes !! i with
            | Some a, Some s =>
                parseSections_loop offsets addresses sizes idxs'
                  (sections ++ [mkSection o a s])
            | _, _ => None
            end
      end
  end.

Definition parseSections (offsets addresses sizes : list Z)
    : option (list Section) :=
  parseSections_loop offsets addresses sizes (seq 0 (length offsets)) [].

(** ** The BSS carving sweep (lines 32 to 67 of [parseHeader]) *)

(** The loop state: the live window and the fragments emitted so far. *)
Record Sweep : Type := mkSweep {
  current_start : Z;
  current_end : Z;
  emitted : list BssSection
}.

Inductive Flow : Type := Continue | Break.

(** One iteration of [for carving_section in sorted_carving_sections]. *)
Definition sweep_step (w : Sweep) (carving_section : Section) : Flow * Sweep :=
  let carving_start := address carving_section in
  let carving_end := carving_start + size carving_section in
  let cs := current_start w in
  let ce := current_end w in
  if (carving_start <=? cs) && (carving_end >=? ce) then
    (Break, mkSweep ce ce (emitted w))
  else
    let w' :=
      if (carving_start <=? cs) && (carving_end >? cs) && (carving_end <? ce)
      then mkSweep carving_end ce (emitted w)
      else if carving_start >? cs
      then mkSweep (Z.min carving_end ce) ce
             (emitted w ++ [mkBss cs (carving_start - cs)])
      else w in
    if current_start w' >=? current_end w' then (Break, w') else (Continue, w').

Fixpoint sweep (w : Sweep) (carving_sections : list Section) : Sweep :=
  match carving_sections with
  | [] => w
  | c :: rest =>
      match sweep_step w c with
      | (Break, w') => w'
      | (Continue, w') => sweep w' rest
      end
  end.

(** "Flush out last section". *)
Definition flush (w : Sweep) : list BssSection :=
  if current_start w <? current_end w
  then emitted w ++ [mkBss (current_start w) (current_end w - current_start w)]
  else emitted w.

(** The [if bssAddress != 0] branch: [carving_sections] is
    [textSections + dataSections], a new list, sorted in place. *)
Definition carve (bssAddress bssSize : Z) (carving_sections : list Section)
    : list BssSection :=
  let sorted_carving_sections := sort_by address carving_sections in
  flush (sweep (mkSweep bssAddress (bssAddress + bssSize) [])
               sorted_carving_sections).

(** ** parseHeader *)

Definition parseHeader (data : list byte) : option Header :=
  textOffsets ← unpack_L 7 (slice data 0x00 0x1c);
  dataOffsets ← unpack_L 11 (slice data 0x1c 0x48);
  textAddresses ← unpack_L 7 (slice data 0x48 0x64);
  dataAddresses ← unpack_L 11 (slice data 0x64 0x90);
  textSizes ← unpack_L 7 (slice data 0x90 0xac);
  dataSizes ← unpack_L 11 (slice data 0xac 0xd8);
  bssAddress ← unpack_L0 (slice data 0xd8 0xdc);
  bssSize ← unpack_L0 (slice data 0xdc 0xe0);
  entrypoint ← unpack_L0 (slice data 0xe0 0xe4);
  textSections ← parseSections textOffsets textAddresses textSizes;
  dataSections ← parseSections dataOffsets dataAddresses dataSizes;
  let bssSections :=
    if negb (bssAddress =? 0)
    then carve bssAddress bssSize (textSections ++ dataSections)
    else [] in
  Some (mkHeader textSections dataSections bssSections entrypoint).

(** ** validateHeader *)

(** "Check that all initialized sections are inside the file". *)
Definition outside_file (filesize : Z) (section : Section) : bool :=
  offset section + size section >? filesize.

(** "Check that all sections are loaded into valid memory": either of the
    two [if not ...: return False] tests fires. *)
Definition outside_memory (section : AnySection) : bool :=
  negb ((0x80000000 <=? any_address section)
        && (any_address section <? 0x81800000))
  || negb ((0x80000000 <=? any_address section + any_size section)
           && (any_address section + any_size section <=? 0x81800000)).

(** The loop [for i in range(len(l) - 1)] over adjacent pairs: whether
    some [first[key] + first["size"] > second[key]]. *)
Fixpoint adjacent_overlap {A : Type} (key sz : A -> Z) (l : list A) : bool :=
  match l with
  | first :: (second :: _) as rest =>
      if key first + sz first >? key second then true
      else adjacent_overlap key sz rest
  | _ => false
  end.

(** [section["address"] <= entrypoint < section["address"] + section["size"]]. *)
Definition contains_entrypoint (entrypoint : Z) (section : Section) : bool :=
  (address section <=? entrypoint)
  && (entrypoint <? address section + size section).

Definition validateHeader (header : Header) (filesize : Z) : bool :=
  let initializedSections := textSections header ++ dataSections header in
  let allSections :=
    map Initialized initializedSections
    ++ map Uninitialized (bssSections header) in
  if (length (textSections header) <? 1)%nat then false
  else if existsb (outside_file filesize) initializedSections then false
  else if existsb outside_memory allSections then false
  else
    let sectionsByOffset := sort_by offset initializedSections in
    if adjacent_overlap offset size sectionsByOffset then false
    else
      let sectionsByAddress := sort_by any_address allSections in
      if adjacent_overlap any_address any_size sectionsByAddress then false
      else
        let entrypointValid :=
          existsb (contains_entrypoint (entrypoint header))
                  (textSections header) in
        if negb entrypointValid then false else true.

(** ** DOLView.is_valid_for_data *)

(** The view [data] is its byte content: [data.read(0, 0xe4)] returns the
    bytes that exist, at most [0xe4] of them, and [len(data)] their
    number. *)
Definition is_valid_for_data (data : list byte) : option bool :=
  let header_data := firstn 0xe4 data in
  if (length header_data <? 0xe4)%nat then Some false
  else
    header ← parseHeader header_data;
    Some (validateHeader header (Z.of_nat (length data))).

(** ** validateHeader over a store of list objects

    Python lists are mutable objects reached through references, and
    [list.sort] sorts in place.  Here the store holds the list objects,
    [+] and [.copy()] allocate a new object, and [.sort] overwrites the
    object it is called on. *)

Module Store.

Abbreviation loc := nat (only parsing).
Abbreviation store := (gmap nat (list AnySection)) (only parsing).

(** A computation over the store; [None] is a raised exception. *)
Definition M (A : Type) : Type := store -> option (A * store).

Definition ret {A : Type} (a : A) : M A := fun σ => Some (a, σ).

Definition bind {A B : Type} (m : M A) (k : A -> M B) : M B :=
  fun σ => match m σ with
           | Some (a, σ') => k a σ'
           | None => None
           end.

Definition lift {A : Type} (o : option A) : M A :=
  fun σ => match o with
           | Some a => Some (a, σ)
           | None => None
           end.

Notation "x <- m ;; k" := (bind m (fun x => k))
  (at level 20, m at level 99, k at level 200, only parsing).

(** Reading the list behind a reference. *)
Definition deref (l : loc) : M (list AnySection) :=
  fun σ => match σ !! l with
           | Some v => Some (v, σ)
           | None => None
           end.

Definition new_list (v : list AnySection) : M loc :=
  fun σ => let l := fresh (dom σ) in Some (l, <[l := v]> σ).

(** [l1 + l2]. *)
Definition list_concat (l1 l2 : loc) : M loc :=
  v1 <- deref l1 ;; v2 <- deref l2 ;; new_list (v1 ++ v2).

(** [l.copy()]. *)
Definition list_copy (l : loc) : M loc :=
  v <- deref l ;; new_list v.

(** [l.sort(key = ...)]: the keys are computed first, then the object
    is overwritten with the sorted list. *)
Definition list_sort (key : AnySection -> option Z) (l : loc) : M unit :=
  v <- deref l ;;
  _ <- lift (mapM key v) ;;
  fun σ => Some (tt, <[l := sort_by (fun s => default 0 (key s)) v]> σ).

(** The header dict: references to its three lists and the entry point. *)
Record HeaderRef : Type := mkHeaderRef {
  textSections_ref : loc;
  dataSections_ref : loc;
  bssSections_ref : loc;
  entrypoint_val : Z
}.

(** The loops of the validator, reading dicts of either kind. *)
Fixpoint any_outside_file (filesize : Z) (l : list AnySection)
    : option bool :=
  match l with
  | [] => Some false
  | section :: l' =>
      match any_offset section with
      | None => None
      | Some o =>
          if o + any_size section >? filesize then Some true
          else any_outside_file filesize l'
      end
  end.

Fixpoint any_offset_overlap (l : list AnySection) : option bool :=
  match l with
  | firstSection :: (secondSection :: _) as rest =>
      match any_offset firstSection, any_offset secondSection with
      | Some o1, Some o2 =>
          if o1 + any_size firstSection >? o2 then Some true
          else any_offset_overlap rest
      | _, _ => None
      end
  | _ => Some false
  end.

Definition any_contains_entrypoint (entrypoint : Z) (section : AnySection)
    : bool :=
  (any_address section <=? entrypoint)
  && (entrypoint <? any_address section + any_size section).

Definition validateHeader_store (header : HeaderRef) (filesize : Z) : M bool :=
  let textSections := textSections_ref header in
  let dataSections := dataSections_ref header in
  let bssSections := bssSections_ref header in
  let entrypoint := entrypoint_val header in
  initializedSections <- list_concat textSections dataSections ;;
  allSections <- list_concat initializedSections bssSections ;;
  text <- deref textSections ;;
  if (length text <? 1)%nat then ret false
  else
    initialized <- deref initializedSections ;;
    outside <- lift (any_outside_file filesize initialized) ;;
    if (outside : bool) then ret false
    else
      all <- deref allSections ;;
      if existsb outside_memory all then ret false
      else
        sectionsByOffset <- list_copy initializedSections ;;
        _ <- list_sort any_offset sectionsByOffset ;;
        byOffset <- deref sectionsByOffset ;;
        overlap <- lift (any_offset_overlap byOffset) ;;
        if (overlap : bool) then ret false
        else
          sectionsByAddress <- list_copy allSections ;;
          _ <- list_sort (fun s => Some (any_address s)) sectionsByAddress ;;
          byAddress <- deref sectionsByAddress ;;
          if adjacent_overlap any_address any_size byAddress then ret false
          else
            let entrypointValid :=
              existsb (any_contains_entrypoint entrypoint) text in
            if negb entrypointValid then ret false else ret true.

(** The store holds the lists of [h] behind the references of [r]. *)
Definition represents (σ : store) (r : HeaderRef) (h : Header) : Prop :=
  σ !! textSections_ref r = Some (map Initialized (textSections h))
  /\ σ !! dataSections_ref r = Some (map Initialized (dataSections h))
  /\ σ !! bssSections_ref r = Some (map Uninitialized (bssSections h))
  /\ entrypoint_val r = entrypoint h.

End Store.

(** ** Writing down header images

    [pack_L] is [struct.pack(">L", v)]; [image] lays the nine fields of a
    header out in file order, padding each table with zero slots. *)

Definition byte_of (v : Z) : byte :=
  match Byte.of_N (Z.to_N (v mod 256)) with
  | Some b => b
  | None => x00
  end.

Definition pack_L (v : Z) : list byte :=
  [byte_of (v / 16777216); byte_of (v / 65536); byte_of (v / 256); byte_of v].

(** [n] slots: the values of [vs], then zeros. *)
Definition table (n : nat) (vs : list Z) : list byte :=
  concat (map pack_L (firstn n (vs ++ repeat 0 n))).

Definition image (text data : list Section) (bssAddress bssSize entry : Z)
    : list byte :=
  table 7 (map offset text) ++ table 11 (map offset data)
  ++ table 7 (map address text) ++ table 11 (map address data)
  ++ table 7 (map size text) ++ table 11 (map size data)
  ++ pack_L bssAddress ++ pack_L bssSize ++ pack_L entry.

(** ** Specification vocabulary *)

(** The order [list.sort(key = ...)] establishes. *)
Definition key_le {A : Type} (key : A -> Z) (a b : A) : Prop :=
  key a <= key b.

(** The values [struct.unpack(">L")] can return. *)
Definition u32 (v : Z) : Prop := 0 <= v < 4294967296.

(** The raw BSS fields of a header image, as [parseHeader] reads them. *)
Definition bssAddress_field (data : list byte) : option Z :=
  unpack_L0 (slice data 0xd8 0xdc).

Definition bssSize_field (data : list byte) : option Z :=
  unpack_L0 (slice data 0xdc 0xe0).

(** [x] lies in the address extent [address, address + size) of an
    obstacle, or of a fragment. *)
Definition in_section (x : Z) (s : Section) : Prop :=
  address s <= x < address s + size s.

Definition in_fragment (x : Z) (f : BssSection) : Prop :=
  bss_address f <= x < bss_address f + bss_size f.

Definition in_fragmentb (x : Z) (f : BssSection) : bool :=
  (bss_address f <=? x) && (x <? bss_address f + bss_size f).

(** The number of fragments of [F] that hold [x]. *)
Definition holders (x : Z) (F : list BssSection) : nat :=
  length (List.filter (in_fragmentb x) F).

(** Fragments in ascending address order without overlap: each one is
    non-empty and ends at or before the start of the next; the first
    starts at or after [lo]. *)
Fixpoint ascending (lo : Z) (F : list BssSection) : Prop :=
  match F with
  | [] => True
  | f :: F' =>
      lo <= bss_address f /\ 0 < bss_size f
      /\ ascending (bss_address f + bss_size f) F'
  end.

(** A fragment is a sub-interval of the range [lo, hi). *)
Definition within (lo hi : Z) (f : BssSection) : Prop :=
  lo <= bss_address f /\ bss_address f + bss_size f <= hi.

(** The checks of [validateHeader] that come before the entry point
    check: all five pass. *)
Definition other_checks (header : Header) (filesize : Z) : bool :=
  let initializedSections := textSections header ++ dataSections header in
  let allSections :=
    map Initialized initializedSections
    ++ map Uninitialized (bssSections header) in
  negb (length (textSections header) <? 1)%nat
  && negb (existsb (outside_file filesize) initializedSections)
  && negb (existsb outside_memory allSections)
  && negb (adjacent_overlap offset size (sort_by offset initializedSections))
  && negb (adjacent_overlap any_address any_size
             (sort_by any_address allSections)).

(** Every object of [σ] is still in [σ'], with the same content. *)
Definition preserved (σ σ' : gmap nat (list AnySection)) : Prop :=
  forall l v, σ !! l = Some v -> σ' !! l = Some v.

(** The two lists [validateHeader] builds first. *)
Definition initializedSections (header : Header) : list Section :=
  textSections header ++ dataSections header.

Definition allSections (header : Header) : list AnySection :=
  map Initialized (initializedSections header)
  ++ map Uninitialized (bssSections header).

(** [x] lies in the address extent of a section of either kind. *)
Definition in_any (x : Z) (s : AnySection) : Prop :=
  any_address s <= x < any_address s + any_size s.

(** [x] lies in the file extent [offset, offset + size) of a section. *)
Definition in_file (x : Z) (s : Section) : Prop :=
  offset s <= x < offset s + size s.

(** Both ends of the address extent lie in the loadable window. *)
Definition in_memory (s : AnySection) : Prop :=
  0x80000000 <= any_address s < 0x81800000
  /\ 0x80000000 <= any_address s + any_size s <= 0x81800000.

(** The three parallel arrays read as one list of slots. *)
Fixpoint zip_sections (offsets addresses sizes : list Z) : list Section :=
  match offsets, addresses, sizes with
  | o :: offsets', a :: addresses', s :: sizes' =>
      mkSection o a s :: zip_sections offsets' addresses' sizes'
  | _, _, _ => []
  end.

(** The slots ahead of the first one whose offset is 0. *)
Fixpoint present_prefix (slots : list Section) : list Section :=
  match slots with
  | [] => []
  | s :: slots' => if offset s =? 0 then [] else s :: present_prefix slots'
  end.

(** A section as [parseHeader] can return it: a non-zero offset and three
    unsigned 32-bit fields. *)
Definition decoded_section (s : Section) : Prop :=
  offset s <> 0 /\ u32 (offset s) /\ u32 (address s) /\ u32 (size s).

(** ** DOLView: init and the entry point queries

    The host view is seen through the calls [init] makes on it, kept in
    order in [host_calls]; an attribute that has not been assigned yet is
    [None], and reading it raises [AttributeError]. *)

Inductive SegmentFlag : Type :=
  | SegmentReadable
  | SegmentWritable
  | SegmentExecutable.

Inductive SectionSemantics : Type :=
  | ReadOnlyCodeSectionSemantics
  | ReadWriteDataSectionSemantics.

(** The flags of a segment are the list of the flags or-ed together;
    [define_auto_symbol_function addr name] is
    [define_auto_symbol(Symbol(SymbolType.FunctionSymbol, addr, name))]. *)
Inductive HostCall : Type :=
  | add_auto_segment (start length data_offset data_length : Z)
      (flags : list SegmentFlag)
  | add_auto_section (name : string) (start length : Z)
      (semantics : SectionSemantics)
  | define_auto_symbol_function (addr : Z) (name : string)
  | add_function (addr : Z)
  | add_entry_point (addr : Z).

Record DOLView : Type := mkDOLView {
  raw : list byte;
  arch : option string;
  platform : option string;
  view_textSections : option (list Section);
  view_dataSections : option (list Section);
  view_bssSections : option (list BssSection);
  view_entrypoint : option Z;
  host_calls : list HostCall
}.

(** [DOLView.__init__]: only [self.raw] is set. *)
Definition new_view (parent : list byte) : DOLView :=
  mkDOLView parent None None None None None None [].

(** [for sectionIndex in range(len(sections))] with
    [section = sections[sectionIndex]], started at index [i]. *)
Fixpoint for_each_index {A : Type} (body : nat -> A -> list HostCall)
    (i : nat) (sections : list A) : list HostCall :=
  match sections with
  | [] => []
  | section :: rest => body i section ++ for_each_index body (S i) rest
  end.

(** The bodies of the three loops of [init]; [pretty sectionIndex] is the
    decimal numeral [format] prints. *)
Definition register_text (sectionIndex : nat) (section : Section)
    : list HostCall :=
  [add_auto_segment (address section) (size section)
     (offset section) (size section) [SegmentReadable; SegmentExecutable];
   add_auto_section (".text" +:+ pretty sectionIndex)
     (address section) (size section) ReadOnlyCodeSectionSemantics].

Definition register_data (sectionIndex : nat) (section : Section)
    : list HostCall :=
  [add_auto_segment (address section) (size section)
     (offset section) (size section) [SegmentReadable; SegmentWritable];
   add_auto_section (".data" +:+ pretty sectionIndex)
     (address section) (size section) ReadWriteDataSectionSemantics].

Definition register_bss (sectionIndex : nat) (section : BssSection)
    : list HostCall :=
  [add_auto_segment (bss_address section) (bss_size section)
     0 0 [SegmentReadable; SegmentWritable];
   add_auto_section (".bss" +:+ pretty sectionIndex)
     (bss_address section) (bss_size section) ReadWriteDataSectionSemantics].

(** The calls [init] makes for a header, in program order. *)
Definition init_calls (header : Header) : list HostCall :=
  for_each_index register_text 0 (textSections header)
  ++ for_each_index register_data 0 (dataSections header)
  ++ for_each_index register_bss 0 (bssSections header)
  ++ [define_auto_symbol_function (entrypoint header) "_start";
      add_function (entrypoint header);
      add_entry_point (entrypoint header)].

(** [DOLView.init]: [None] when [parseHeader] raises, which happens after
    [self.arch] and [self.platform] were assigned and before any call on
    the host. *)
Definition init (self : DOLView) : option (bool * DOLView) :=
  header ← parseHeader (firstn 0xe4 (raw self));
  Some (true,
        mkDOLView (raw self) (Some "ppc") (Some "ppc")
          (Some (textSections header)) (Some (dataSections header))
          (Some (bssSections header)) (Some (entrypoint header))
          (host_calls self ++ init_calls header)).

Definition perform_is_executable (self : DOLView) : bool := true.

(** [return self.entrypoint]. *)
Definition perform_get_entry_point (self : DOLView) : option Z :=
  view_entrypoint self.

(** The address extents (start, length) of the segments among some host
    calls, and the names of the sections among them. *)
Fixpoint segment_extents (calls : list HostCall) : list (Z * Z) :=
  match calls with
  | [] => []
  | add_auto_segment start len _ _ _ :: rest =>
      (start, len) :: segment_extents rest
  | _ :: rest => segment_extents rest
  end.

Fixpoint section_names (calls : list HostCall) : list string :=
  match calls with
  | [] => []
  | add_auto_section name _ _ _ :: rest => name :: section_names rest
  | _ :: rest => section_names rest
  end.

(** A complete file of 0x400 bytes: one text section, one data section,
    the BSS range behind them, and zero bytes for the section contents. *)
Definition example_text : Section := mkSection 0x100 0x80003100 0x200.
Definition example_data : Section := mkSection 0x300 0x80003300 0x100.

Definition example_header : Header :=
  mkHeader [example_text] [example_data] [mkBss 0x80003400 0x100] 0x80003100.

Definition example_file : list byte :=
  image [example_text] [example_data] 0x80003400 0x100 0x80003100
  ++ repeat x00 0x31c.

(** * Properties *)

(** ** The stable sort *)

Section SortByFacts.
Context {A : Type} (key : A -> Z).

Lemma insert_by_perm (x : A) (l : list A) :
  Permutation (insert_by key x l) (x :: l).
Proof.
  induction l as [|y l IH]; simpl.
  - apply Permutation_refl.
  - destruct (key y <? key x).
    + apply Permutation_trans with (y :: x :: l).
      * apply perm_skip, IH.
      * apply perm_swap.
    + apply Permutation_refl.
Qed.

Lemma sort_by_perm (l : list A) : Permutation (sort_by key l) l.
Proof.
  induction l as [|x l IH]; simpl.
  - apply perm_nil.
  - apply Permutation_trans with (x :: sort_by key l).
    + apply insert_by_perm.
    + apply perm_skip, IH.
Qed.

Lemma sort_by_In (x : A) (l : list A) : In x (sort_by key l) <-> In x l.
Proof.
  split; apply Permutation_in;
    [apply sort_by_perm | apply Permutation_sym, sort_by_perm].
Qed.

Lemma sort_by_length (l : list A) : length (sort_by key l) = length l.
Proof. apply Permutation_length, sort_by_perm. Qed.

Lemma insert_by_sorted (x : A) (l : list A) :
  StronglySorted (key_le key) l -> StronglySorted (key_le key) (insert_by key x l).
Proof.
  induction 1 as [|y l Hl IH Hy]; simpl.
  - constructor; constructor.
  - destruct (key y <? key x) eqn:E.
    + apply Z.ltb_lt in E. constructor; [exact IH|].
      apply List.Forall_forall. intros z Hz.
      apply (Permutation_in _ (insert_by_perm x l)) in Hz.
      destruct Hz as [<-|Hz].
      * unfold key_le. lia.
      * rewrite List.Forall_forall in Hy. apply Hy, Hz.
    + apply Z.ltb_ge in E. constructor.
      * constructor; assumption.
      * constructor; [exact E|].
        eapply List.Forall_impl; [|exact Hy].
        unfold key_le. intros z Hz. lia.
Qed.

Lemma sort_by_sorted (l : list A) : StronglySorted (key_le key) (sort_by key l).
Proof.
  induction l as [|x l IH]; simpl.
  - constructor.
  - apply insert_by_sorted, IH.
Qed.

(** Stability: elements of equal key keep their order. *)
Lemma insert_by_stable (k : Z) (x : A) (l : list A) :
  List.filter (fun a => key a =? k) (insert_by key x l)
  = List.filter (fun a => key a =? k) (x :: l).
Proof.
  induction l as [|y l IH]; [reflexivity|].
  simpl insert_by. destruct (key y <? key x) eqn:E; [|reflexivity].
  apply Z.ltb_lt in E. simpl in *. rewrite IH.
  destruct (key x =? k) eqn:Ex, (key y =? k) eqn:Ey; try reflexivity.
  apply Z.eqb_eq in Ex, Ey. lia.
Qed.

Lemma sort_by_stable (k : Z) (l : list A) :
  List.filter (fun a => key a =? k) (sort_by key l)
  = List.filter (fun a => key a =? k) l.
Proof.
  induction l as [|x l IH]; [reflexivity|].
  simpl sort_by. rewrite insert_by_stable. simpl. now rewrite IH.
Qed.

End SortByFacts.

Lemma insert_by_map {A B : Type} (key : A -> Z) (f : B -> A) (x : B) (l : list B) :
  insert_by key (f x) (map f l) = map f (insert_by (fun b => key (f b)) x l).
Proof.
  induction l as [|y l IH]; [reflexivity|].
  simpl. destruct (key (f y) <? key (f x)); simpl; [now rewrite IH | reflexivity].
Qed.

Lemma sort_by_map {A B : Type} (key : A -> Z) (f : B -> A) (l : list B) :
  sort_by key (map f l) = map f (sort_by (fun b => key (f b)) l).
Proof.
  induction l as [|x l IH]; [reflexivity|].
  simpl. now rewrite IH, insert_by_map.
Qed.

(** ** Decoding bytes *)

Lemma byte_val_range (b : byte) : 0 <= byte_val b < 256.
Proof.
  unfold byte_val. pose proof (Byte.to_N_bounded b) as H. lia.
Qed.

Lemma be32_range (b0 b1 b2 b3 : byte) : u32 (be32 b0 b1 b2 b3).
Proof.
  unfold u32, be32.
  pose proof (byte_val_range b0). pose proof (byte_val_range b1).
  pose proof (byte_val_range b2). pose proof (byte_val_range b3). lia.
Qed.

Lemma slice_length (data : list byte) (lo hi : nat) :
  (hi <= length data)%nat -> length (slice data lo hi) = (hi - lo)%nat.
Proof.
  intros H. unfold slice. rewrite length_firstn, length_skipn. lia.
Qed.

Lemma slice_firstn (n : nat) (data : list byte) (lo hi : nat) :
  (hi <= n)%nat -> slice (firstn n data) lo hi = slice data lo hi.
Proof.
  intros H. unfold slice.
  rewrite skipn_firstn_comm, firstn_firstn.
  f_equal. lia.
Qed.

Lemma unpack_L_total (n : nat) :
  forall bs, length bs = (4 * n)%nat ->
  exists vs, unpack_L n bs = Some vs /\ length vs = n /\ Forall u32 vs.
Proof.
  induction n as [|n IH]; intros bs Hlen.
  - destruct bs; [|discriminate]. exists []. repeat split. constructor.
  - destruct bs as [|b0 [|b1 [|b2 [|b3 rest]]]]; simpl in Hlen; try lia.
    destruct (IH rest) as (vs & E & Hl & Hr); [lia|].
    exists (be32 b0 b1 b2 b3 :: vs). simpl. rewrite E.
    repeat split; [simpl; lia|]. constructor; [apply be32_range | exact Hr].
Qed.

Lemma unpack_L0_total (bs : list byte) :
  length bs = 4%nat -> exists v, unpack_L0 bs = Some v /\ u32 v.
Proof.
  intros Hlen. destruct (unpack_L_total 1 bs Hlen) as (vs & E & Hl & Hr).
  unfold unpack_L0. rewrite E.
  destruct vs as [|v vs]; [discriminate|].
  exists v. split; [reflexivity|]. now inversion Hr.
Qed.

Lemma unpack_L0_range (bs : list byte) (v : Z) :
  unpack_L0 bs = Some v -> u32 v.
Proof.
  unfold unpack_L0. simpl.
  destruct bs as [|b0 [|b1 [|b2 [|b3 [|? ?]]]]]; try discriminate.
  intros [= <-]. apply be32_range.
Qed.

(** ** parseSections *)

Lemma parseSections_loop_total (offsets addresses sizes : list Z) :
  length addresses = length offsets -> length sizes = length offsets ->
  forall idxs acc,
    Forall (fun i => (i < length offsets)%nat) idxs ->
    exists sections,
      parseSections_loop offsets addresses sizes idxs acc = Some sections.
Proof.
  intros Ha Hs. induction idxs as [|i idxs IH]; intros acc Hidx; simpl.
  - now exists acc.
  - inversion Hidx as [|? ? Hi Hrest]; subst.
    destruct (lookup_lt_is_Some_2 offsets i Hi) as [o ->].
    destruct (o =? 0); [now exists acc|].
    destruct (lookup_lt_is_Some_2 addresses i) as [a ->]; [lia|].
    destruct (lookup_lt_is_Some_2 sizes i) as [s ->]; [lia|].
    apply IH, Hrest.
Qed.

Lemma parseSections_total (offsets addresses sizes : list Z) :
  length addresses = length offsets -> length sizes = length offsets ->
  exists sections, parseSections offsets addresses sizes = Some sections.
Proof.
  intros Ha Hs. apply parseSections_loop_total; try assumption.
  apply List.Forall_forall. intros i Hi. apply in_seq in Hi. lia.
Qed.

(** The loop started at slot [start] with [k] present slots ahead of a
    zero offset appends exactly those [k] slots. *)
Lemma parseSections_loop_first_zero (offsets addresses sizes : list Z)
    (slot : nat -> Section) :
  forall k start n acc,
    (k < n)%nat ->
    offsets !! (start + k)%nat = Some 0 ->
    (forall j, (start <= j < start + k)%nat ->
       exists o a s, o <> 0 /\ offsets !! j = Some o /\ addresses !! j = Some a
                     /\ sizes !! j = Some s /\ slot j = mkSection o a s) ->
    parseSections_loop offsets addresses sizes (seq start n) acc
    = Some (acc ++ map slot (seq start k)).
Proof.
  induction k as [|k IH]; intros start n acc Hn Hz Hpre.
  - destruct n as [|n]; [lia|]. simpl.
    rewrite Nat.add_0_r in Hz. rewrite Hz. simpl. now rewrite app_nil_r.
  - destruct n as [|n]; [lia|]. simpl.
    destruct (Hpre start) as (o & a & s & Ho & -> & -> & -> & Hslot); [lia|].
    apply Z.eqb_neq in Ho. rewrite Ho.
    rewrite (IH (S start) n); [| lia | | ].
    + rewrite Hslot, <- app_assoc. reflexivity.
    + rewrite <- Hz. f_equal. lia.
    + intros j Hj. apply Hpre. lia.
Qed.

(** C6: section-table decoding stops at the first zero offset.  If slot
    [i] is the first slot of a table whose offset field is 0, then
    [parseSections] returns exactly [i] sections, and section [j] carries
    the offset, address and size found at index [j] of the three arrays;
    nothing stored in the slots after [i] enters the result. *)
Theorem parseSections_first_zero (offsets addresses sizes : list Z) (i : nat) :
  length addresses = length offsets ->
  length sizes = length offsets ->
  offsets !! i = Some 0 ->
  (forall j o, (j < i)%nat -> offsets !! j = Some o -> o <> 0) ->
  exists sections,
    parseSections offsets addresses sizes = Some sections
    /\ length sections = i
    /\ forall j, (j < i)%nat ->
         exists o a s,
           offsets !! j = Some o /\ addresses !! j = Some a
           /\ sizes !! j = Some s /\ sections !! j = Some (mkSection o a s).
Proof.
  intros Ha Hs Hz Hnz.
  assert (Hi : (i < length offsets)%nat) by (eapply lookup_lt_Some; eauto).
  set (slot := fun j => mkSection (nth j offsets 0) (nth j addresses 0)
                                  (nth j sizes 0)).
  assert (Hslot : forall j, (j < i)%nat ->
            exists o a s, o <> 0 /\ offsets !! j = Some o
              /\ addresses !! j = Some a /\ sizes !! j = Some s
              /\ slot j = mkSection o a s).
  { intros j Hj.
    destruct (lookup_lt_is_Some_2 offsets j) as [o Ho]; [lia|].
    destruct (lookup_lt_is_Some_2 addresses j) as [a Hja]; [lia|].
    destruct (lookup_lt_is_Some_2 sizes j) as [s Hjs]; [lia|].
    exists o, a, s. repeat split; eauto.
    unfold slot. rewrite !nth_lookup, Ho, Hja, Hjs. reflexivity. }
  exists (map slot (seq 0 i)). split; [|split].
  - unfold parseSections.
    rewrite (parseSections_loop_first_zero offsets addresses sizes slot i 0);
      [reflexivity | lia | exact Hz |].
    intros j Hj. apply Hslot. lia.
  - now rewrite length_map, length_seq.
  - intros j Hj. destruct (Hslot j Hj) as (o & a & s & _ & Ho & Hja & Hjs & E).
    exists o, a, s. repeat split; try assumption.
    rewrite list_lookup_fmap, lookup_seq_lt by exact Hj. simpl.
    now rewrite E.
Qed.

(** A 7-slot text table with two present slots, a zero offset in slot 2
    and non-zero values behind it. *)
Lemma parseSections_first_zero_witness :
  exists sections,
    parseSections [0x100; 0x300; 0; 0x900; 0; 0; 0]
                  [0x80003100; 0x80003300; 5; 6; 0; 0; 0]
                  [0x200; 0x100; 7; 8; 0; 0; 0] = Some sections
    /\ length sections = 2%nat
    /\ forall j, (j < 2)%nat ->
         exists o a s,
           [0x100; 0x300; 0; 0x900; 0; 0; 0] !! j = Some o
           /\ [0x80003100; 0x80003300; 5; 6; 0; 0; 0] !! j = Some a
           /\ [0x200; 0x100; 7; 8; 0; 0; 0] !! j = Some s
           /\ sections !! j = Some (mkSection o a s).
Proof.
  apply (parseSections_first_zero
           [0x100; 0x300; 0; 0x900; 0; 0; 0]
           [0x80003100; 0x80003300; 5; 6; 0; 0; 0]
           [0x200; 0x100; 7; 8; 0; 0; 0] 2).
  - reflexivity.
  - reflexivity.
  - reflexivity.
  - intros j o Hj.
    destruct j as [|[|j]]; [| | lia]; simpl; intros [= <-]; lia.
Defined.

(** The slots behind the first zero offset do not matter: two tables that
    agree up to it decode alike. *)
Lemma parseSections_ignores_tail (offsets addresses sizes tail1 tail2 tail3
    tail1' tail2' tail3' : list Z) :
  length addresses = length offsets ->
  length sizes = length offsets ->
  Forall (fun o => o <> 0) offsets ->
  parseSections (offsets ++ 0 :: tail1) (addresses ++ tail2) (sizes ++ tail3)
  = parseSections (offsets ++ 0 :: tail1') (addresses ++ tail2') (sizes ++ tail3').
Proof.
  intros Ha Hs Hnz.
  set (slot := fun j => mkSection (nth j offsets 0) (nth j addresses 0)
                                  (nth j sizes 0)).
  assert (Hgen : forall t1 t2 t3,
    parseSections (offsets ++ 0 :: t1) (addresses ++ t2) (sizes ++ t3)
    = Some (map slot (seq 0 (length offsets)))).
  { intros t1 t2 t3. unfold parseSections.
    rewrite (parseSections_loop_first_zero _ _ _ slot (length offsets) 0).
    - reflexivity.
    - rewrite length_app. simpl. lia.
    - simpl. rewrite lookup_app_r by lia. now rewrite Nat.sub_diag.
    - intros j Hj.
      destruct (lookup_lt_is_Some_2 offsets j) as [o Ho]; [lia|].
      destruct (lookup_lt_is_Some_2 addresses j) as [a Hja]; [lia|].
      destruct (lookup_lt_is_Some_2 sizes j) as [s Hjs]; [lia|].
      exists o, a, s. rewrite !lookup_app_l by lia.
      repeat split; try assumption.
      + rewrite List.Forall_forall in Hnz. apply Hnz.
        apply list_elem_of_In, list_elem_of_lookup. eauto.
      + unfold slot. rewrite !nth_lookup, Ho, Hja, Hjs. reflexivity. }
  now rewrite !Hgen.
Qed.

(** ** parseHeader *)

Ltac unpack_table :=
  match goal with
  | |- context [unpack_L ?n (slice ?d ?lo ?hi)] =>
      let vs := fresh "vs" in
      let E := fresh "E" in
      let L := fresh "L" in
      destruct (unpack_L_total n (slice d lo hi)) as (vs & E & L & _);
      [rewrite slice_length by lia; reflexivity
      |rewrite E; cbn [mbind option_bind]]
  end.

Ltac unpack_field :=
  match goal with
  | |- context [unpack_L0 (slice ?d ?lo ?hi)] =>
      let v := fresh "v" in
      let E := fresh "E" in
      destruct (unpack_L0_total (slice d lo hi)) as (v & E & _);
      [rewrite slice_length by lia; reflexivity
      |rewrite E; cbn [mbind option_bind]]
  end.

Ltac parse_table :=
  match goal with
  | |- context [parseSections ?o ?a ?s] =>
      let secs := fresh "secs" in
      let E := fresh "E" in
      destruct (parseSections_total o a s) as (secs & E); [lia | lia |];
      rewrite E; cbn [mbind option_bind]
  end.

(** Every [struct.unpack] gets a slice of the length it asks for, and
    both section tables are read within their bounds. *)
Lemma parseHeader_succeeds (data : list byte) :
  (0xe4 <= length data)%nat -> is_Some (parseHeader data).
Proof.
  intros Hlen. unfold parseHeader.
  do 6 unpack_table. do 3 unpack_field. do 2 parse_table.
  eexists. reflexivity.
Qed.

(** C8: decoding is total.  On every buffer of at least 0xE4 bytes
    [parseHeader] raises nothing and returns a header, whatever the
    fields hold. *)
Theorem parseHeader_total (data : list byte) :
  (0xe4 <= length data)%nat -> exists header, parseHeader data = Some header.
Proof.
  intros Hlen. exact (parseHeader_succeeds data Hlen).
Qed.

Lemma parseHeader_total_witness :
  (0xe4 <= length (repeat xff 0xe4))%nat
  /\ exists header, parseHeader (repeat xff 0xe4) = Some header.
Proof.
  split; [apply Nat.leb_le; vm_compute; reflexivity|].
  apply (parseHeader_total (repeat xff 0xe4)).
  apply Nat.leb_le. vm_compute. reflexivity.
Defined.

Lemma parseHeader_firstn (data : list byte) :
  parseHeader (firstn 0xe4 data) = parseHeader data.
Proof.
  unfold parseHeader. now rewrite !slice_firstn by lia.
Qed.

(** C10: decoding reads the first 0xE4 bytes only.  Two buffers of at
    least 0xE4 bytes that agree on bytes 0 to 0xE3 decode to one and the
    same header. *)
Theorem parseHeader_prefix_only (data1 data2 : list byte) :
  (0xe4 <= length data1)%nat ->
  (0xe4 <= length data2)%nat ->
  firstn 0xe4 data1 = firstn 0xe4 data2 ->
  exists header,
    parseHeader data1 = Some header /\ parseHeader data2 = Some header.
Proof.
  intros H1 H2 Heq.
  destruct (parseHeader_succeeds data1 H1) as [h Hh].
  exists h. split; [exact Hh|].
  rewrite <- (parseHeader_firstn data2), <- Heq, parseHeader_firstn.
  exact Hh.
Qed.

(** Two views with the header of the example scenario and different
    content behind it. *)
Lemma parseHeader_prefix_only_witness :
  let img := image [mkSection 0x100 0x80003100 0x200] []
                   0x80003400 0x100 0x80003100 in
  exists header,
    parseHeader (img ++ [x00; x01]) = Some header
    /\ parseHeader (img ++ [xff; xfe; xfd]) = Some header.
Proof.
  cbv zeta.
  apply (parseHeader_prefix_only
           (image [mkSection 0x100 0x80003100 0x200] []
                  0x80003400 0x100 0x80003100 ++ [x00; x01])
           (image [mkSection 0x100 0x80003100 0x200] []
                  0x80003400 0x100 0x80003100 ++ [xff; xfe; xfd])).
  - apply Nat.leb_le. vm_compute. reflexivity.
  - apply Nat.leb_le. vm_compute. reflexivity.
  - vm_compute. reflexivity.
Defined.

(** What a successful [parseHeader] read from the image. *)
Lemma parseHeader_inv (data : list byte) (h : Header) :
  parseHeader data = Some h ->
  exists bssAddress bssSize,
    bssAddress_field data = Some bssAddress
    /\ bssSize_field data = Some bssSize
    /\ u32 bssAddress /\ u32 bssSize
    /\ unpack_L0 (slice data 0xe0 0xe4) = Some (entrypoint h)
    /\ bssSections h =
         if negb (bssAddress =? 0)
         then carve bssAddress bssSize (textSections h ++ dataSections h)
         else [].
Proof.
  unfold parseHeader, bssAddress_field, bssSize_field. intros H.
  repeat match type of H with
  | context [unpack_L ?n ?bs] =>
      destruct (unpack_L n bs); cbn [mbind option_bind] in H;
        [|discriminate H]
  end.
  destruct (unpack_L0 (slice data 0xd8 0xdc)) as [bssAddress|] eqn:Ea;
    cbn [mbind option_bind] in H; [|discriminate H].
  destruct (unpack_L0 (slice data 0xdc 0xe0)) as [bssSize|] eqn:Es;
    cbn [mbind option_bind] in H; [|discriminate H].
  destruct (unpack_L0 (slice data 0xe0 0xe4)) as [entry|] eqn:Ee;
    cbn [mbind option_bind] in H; [|discriminate H].
  repeat match type of H with
  | context [parseSections ?o ?a ?s] =>
      destruct (parseSections o a s); cbn [mbind option_bind] in H;
        [|discriminate H]
  end.
  injection H as <-. exists bssAddress, bssSize. simpl.
  repeat split; try reflexivity;
    try (eapply unpack_L0_range; eassumption).
Qed.

(** ** Fragment lists *)

Lemma in_fragmentb_spec (x : Z) (f : BssSection) :
  in_fragmentb x f = true <-> in_fragment x f.
Proof.
  unfold in_fragmentb, in_fragment.
  rewrite andb_true_iff, Z.leb_le, Z.ltb_lt. tauto.
Qed.

Lemma ascending_weaken (F : list BssSection) (lo lo' : Z) :
  lo' <= lo -> ascending lo F -> ascending lo' F.
Proof.
  destruct F as [|f F]; simpl; [trivial|].
  intros Hle (H1 & H2 & H3). repeat split; try assumption. lia.
Qed.

Lemma ascending_lower (F : list BssSection) :
  forall lo g, ascending lo F -> In g F ->
    lo <= bss_address g /\ 0 < bss_size g.
Proof.
  induction F as [|f F IH]; intros lo g Hasc Hin; [destruct Hin|].
  destruct Hasc as (H1 & H2 & H3). destruct Hin as [<-|Hin].
  - split; assumption.
  - destruct (IH _ g H3 Hin). split; [lia | assumption].
Qed.

Lemma holders_below (F : list BssSection) :
  forall lo x, ascending lo F -> x < lo -> holders x F = 0%nat.
Proof.
  induction F as [|f F IH]; intros lo x Hasc Hx; [reflexivity|].
  destruct Hasc as (H1 & H2 & H3). unfold holders in *. simpl.
  destruct (in_fragmentb x f) eqn:E.
  - apply in_fragmentb_spec in E. unfold in_fragment in E. lia.
  - apply (IH _ x H3). lia.
Qed.

Lemma holders_none (F : list BssSection) (x : Z) :
  (forall g, In g F -> ~ in_fragment x g) -> holders x F = 0%nat.
Proof.
  induction F as [|f F IH]; intros Hno; [reflexivity|].
  unfold holders in *. simpl. destruct (in_fragmentb x f) eqn:E.
  - apply in_fragmentb_spec in E. exfalso. apply (Hno f); [now left | exact E].
  - apply IH. intros g Hg. apply Hno. now right.
Qed.

Lemma holders_one (F : list BssSection) :
  forall lo x g,
    ascending lo F -> In g F -> in_fragment x g -> holders x F = 1%nat.
Proof.
  induction F as [|f F IH]; intros lo x g Hasc Hin Hx; [destruct Hin|].
  destruct Hasc as (H1 & H2 & H3).
  change (holders x (f :: F))
    with (length (if in_fragmentb x f
                  then f :: List.filter (in_fragmentb x) F
                  else List.filter (in_fragmentb x) F)).
  destruct (in_fragmentb x f) eqn:E.
  - apply in_fragmentb_spec in E. simpl. f_equal.
    apply (holders_below F _ x H3). unfold in_fragment in E. lia.
  - destruct Hin as [<-|Hin].
    + apply in_fragmentb_spec in Hx. congruence.
    + apply (IH _ x g H3 Hin Hx).
Qed.

Lemma holders_positive (F : list BssSection) (x : Z) :
  (0 < holders x F)%nat -> exists g, In g F /\ in_fragment x g.
Proof.
  unfold holders. intros H.
  destruct (List.filter (in_fragmentb x) F) as [|g G] eqn:E; [simpl in H; lia|].
  assert (Hg : In g (List.filter (in_fragmentb x) F)) by (rewrite E; now left).
  apply filter_In in Hg. destruct Hg as [Hg Hx].
  exists g. split; [exact Hg | now apply in_fragmentb_spec].
Qed.

(** In an ascending list an earlier fragment ends at or before the start
    of every later one. *)
Lemma ascending_ordered (F : list BssSection) :
  forall lo i j f g,
    ascending lo F -> (i < j)%nat -> F !! i = Some f -> F !! j = Some g ->
    bss_address f + bss_size f <= bss_address g.
Proof.
  induction F as [|h F IH]; intros lo i j f g Hasc Hij Hi Hj;
    [discriminate Hi|].
  destruct Hasc as (H1 & H2 & H3).
  destruct j as [|j]; [lia|]. simpl in Hj.
  destruct i as [|i].
  - injection Hi as <-.
    apply (ascending_lower F _ g H3).
    apply list_elem_of_In, list_elem_of_lookup. eauto.
  - simpl in Hi. apply (IH _ i j f g H3); [lia | assumption | assumption].
Qed.

(** ** The carving sweep *)

Ltac split_comparisons :=
  repeat (cbn [andb negb current_start current_end emitted];
          match goal with
          | |- context [Z.leb ?a ?b] => destruct (Z.leb_spec a b)
          | |- context [Z.ltb ?a ?b] => destruct (Z.ltb_spec a b)
          | |- context [Z.min ?a ?b] =>
              destruct (Z.min_spec a b) as [[? ->]|[? ->]]
          end).

Ltac this_case :=
  solve [repeat split; first [lia | reflexivity | (repeat f_equal; lia)]].

(** The six ways one iteration can go, for a window with
    [current_start <= current_end] and an obstacle of size [>= 0]. *)
Lemma sweep_step_cases (cs ce : Z) (em : list BssSection) (c : Section) :
  0 <= size c -> cs <= ce ->
  let s := address c in
  let e := address c + size c in
  let f := mkBss cs (s - cs) in
  (s <= cs /\ ce <= e
     /\ sweep_step (mkSweep cs ce em) c = (Break, mkSweep ce ce em))
  \/ (s <= cs < e /\ e < ce
     /\ sweep_step (mkSweep cs ce em) c = (Continue, mkSweep e ce em))
  \/ (cs < s /\ ce <= e
     /\ sweep_step (mkSweep cs ce em) c = (Break, mkSweep ce ce (em ++ [f])))
  \/ (cs < s /\ e < ce
     /\ sweep_step (mkSweep cs ce em) c = (Continue, mkSweep e ce (em ++ [f])))
  \/ (e <= cs /\ cs < ce
     /\ sweep_step (mkSweep cs ce em) c = (Continue, mkSweep cs ce em))
  \/ (e < cs /\ cs = ce
     /\ sweep_step (mkSweep cs ce em) c = (Break, mkSweep cs ce em)).
Proof.
  intros Hsz Hle s e f. subst s e f. unfold sweep_step.
  cbv zeta. cbn [current_start current_end emitted].
  rewrite !Z.geb_leb, !Z.gtb_ltb.
  destruct (Z.leb_spec (address c) cs),
           (Z.leb_spec ce (address c + size c)),
           (Z.ltb_spec cs (address c + size c)),
           (Z.ltb_spec (address c + size c) ce),
           (Z.ltb_spec cs (address c));
    split_comparisons; try (exfalso; lia);
    first [ left; this_case
          | right; left; this_case
          | right; right; left; this_case
          | right; right; right; left; this_case
          | right; right; right; right; left; this_case
          | right; right; right; right; right; this_case ].
Qed.

Lemma within_weaken (lo lo' hi : Z) (G : list BssSection) :
  lo' <= lo -> Forall (within lo hi) G -> Forall (within lo' hi) G.
Proof.
  intros Hle. apply List.Forall_impl. unfold within. intros g. lia.
Qed.

(** What the sweep and the final flush add to the emitted fragments, from
    a window [cs, ce) over obstacles sorted by address. *)
Lemma sweep_spec (l : list Section) :
  forall cs ce em,
    cs <= ce ->
    StronglySorted (key_le address) l ->
    Forall (fun o => 0 <= size o) l ->
    exists G,
      flush (sweep (mkSweep cs ce em) l) = em ++ G
      /\ ascending cs G
      /\ (forall x, cs <= x < ce ->
            (exists o, In o l /\ in_section x o)
            \/ (exists g, In g G /\ in_fragment x g))
      /\ (forall g o x, In g G -> In o l -> in_fragment x g -> ~ in_section x o)
      /\ (Forall (fun o => address o <= ce) l -> Forall (within cs ce) G).
Proof.
  induction l as [|c rest IH]; intros cs ce em Hle Hsorted Hsize.
  - unfold flush. simpl. destruct (Z.ltb_spec cs ce).
    + exists [mkBss cs (ce - cs)].
      split; [reflexivity|]. split; [simpl; lia|]. split; [|split].
      * intros x Hx. right. exists (mkBss cs (ce - cs)).
        split; [now left|]. unfold in_fragment. simpl. lia.
      * intros g o x _ [].
      * intros _. repeat constructor; simpl; lia.
    + exists []. rewrite app_nil_r.
      split; [reflexivity|]. split; [exact I|]. split; [|split].
      * intros x Hx. lia.
      * intros g o x [].
      * intros _. constructor.
  - inversion Hsorted as [|? ? Hsorted' Hc]; subst.
    inversion Hsize as [|? ? Hsz Hsize']; subst.
    rewrite List.Forall_forall in Hc. unfold key_le in Hc.
    simpl sweep.
    destruct (sweep_step_cases cs ce em c Hsz Hle)
      as [(H1 & H2 & ->)|[(H1 & H2 & ->)|[(H1 & H2 & ->)|[(H1 & H2 & ->)
         |[(H1 & H2 & ->)|(H1 & H2 & ->)]]]]].
    + (* the obstacle covers the whole window *)
      exists []. unfold flush. simpl. rewrite Z.ltb_irrefl, app_nil_r.
      split; [reflexivity|]. split; [exact I|]. split; [|split].
      * intros x Hx. left. exists c. split; [now left|].
        unfold in_section. lia.
      * intros g o x [].
      * intros _. constructor.
    + (* overlap from the left *)
      destruct (IH (address c + size c) ce em) as (G & HG & Hasc & Hcov & Hdis & Hin);
        [lia | assumption | assumption |].
      exists G. split; [exact HG|]. split; [|split; [|split]].
      * apply (ascending_weaken G (address c + size c)); [lia | exact Hasc].
      * intros x Hx. destruct (Z.lt_ge_cases x (address c + size c)).
        -- left. exists c. split; [now left|]. unfold in_section. lia.
        -- destruct (Hcov x) as [(o & Ho & Hxo)|Hfrag]; [lia| |now right].
           left. exists o. split; [now right | exact Hxo].
      * intros g o x Hg [<-|Ho] Hxg; [|now apply (Hdis g o x)].
        destruct (ascending_lower G _ g Hasc Hg).
        unfold in_fragment in Hxg. unfold in_section. lia.
      * intros Hall. inversion Hall; subst.
        apply (within_weaken (address c + size c)); [lia | now apply Hin].
    + (* a fragment up to the obstacle, which reaches the window end *)
      exists [mkBss cs (address c - cs)]. unfold flush. simpl.
      rewrite Z.ltb_irrefl. split; [reflexivity|].
      split; [simpl; lia|]. split; [|split].
      * intros x Hx. destruct (Z.lt_ge_cases x (address c)).
        -- right. eexists. split; [now left|]. unfold in_fragment. simpl. lia.
        -- left. exists c. split; [now left|]. unfold in_section. lia.
      * intros g o x [<-|[]] Ho Hxg. unfold in_fragment in Hxg. simpl in Hxg.
        unfold in_section. destruct Ho as [<-|Ho]; [lia|].
        specialize (Hc o Ho). lia.
      * intros Hall. inversion Hall; subst.
        repeat constructor; simpl; lia.
    + (* a fragment up to the obstacle, which ends inside the window *)
      destruct (IH (address c + size c) ce (em ++ [mkBss cs (address c - cs)]))
        as (G & HG & Hasc & Hcov & Hdis & Hin);
        [lia | assumption | assumption |].
      exists (mkBss cs (address c - cs) :: G).
      split; [rewrite HG, <- app_assoc; reflexivity|]. split; [|split; [|split]].
      * simpl. split; [lia|]. split; [lia|].
        apply (ascending_weaken G (address c + size c)); [lia | exact Hasc].
      * intros x Hx. destruct (Z.lt_ge_cases x (address c)).
        -- right. eexists. split; [now left|]. unfold in_fragment. simpl. lia.
        -- destruct (Z.lt_ge_cases x (address c + size c)).
           ++ left. exists c. split; [now left|]. unfold in_section. lia.
           ++ destruct (Hcov x) as [(o & Ho & Hxo)|(g & Hg & Hxg)]; [lia| |].
              ** left. exists o. split; [now right | exact Hxo].
              ** right. exists g. split; [now right | exact Hxg].
      * intros g o x [<-|Hg] Ho Hxg.
        -- unfold in_fragment in Hxg. simpl in Hxg. unfold in_section.
           destruct Ho as [<-|Ho]; [lia|]. specialize (Hc o Ho). lia.
        -- destruct Ho as [<-|Ho]; [|now apply (Hdis g o x)].
           destruct (ascending_lower G _ g Hasc Hg).
           unfold in_fragment in Hxg. unfold in_section. lia.
      * intros Hall. inversion Hall; subst. constructor.
        -- unfold within. simpl. lia.
        -- apply (within_weaken (address c + size c)); [lia | now apply Hin].
    + (* the obstacle ends at or before the window start *)
      destruct (IH cs ce em) as (G & HG & Hasc & Hcov & Hdis & Hin);
        [lia | assumption | assumption |].
      exists G. split; [exact HG|]. split; [exact Hasc|]. split; [|split].
      * intros x Hx. destruct (Hcov x Hx) as [(o & Ho & Hxo)|Hfrag]; [|now right].
        left. exists o. split; [now right | exact Hxo].
      * intros g o x Hg [<-|Ho] Hxg; [|now apply (Hdis g o x)].
        destruct (ascending_lower G _ g Hasc Hg).
        unfold in_fragment in Hxg. unfold in_section. lia.
      * intros Hall. inversion Hall; subst. now apply Hin.
    + (* an empty window *)
      exists []. unfold flush. simpl. subst ce. rewrite Z.ltb_irrefl, app_nil_r.
      split; [reflexivity|]. split; [exact I|]. split; [|split].
      * intros x Hx. lia.
      * intros g o x [].
      * intros _. constructor.
Qed.

Lemma carve_spec (bssAddress bssSize : Z) (obstacles : list Section) :
  0 <= bssSize ->
  Forall (fun o => 0 <= size o) obstacles ->
  let F := carve bssAddress bssSize obstacles in
  ascending bssAddress F
  /\ (forall x, bssAddress <= x < bssAddress + bssSize ->
        (exists o, In o obstacles /\ in_section x o)
        \/ (exists g, In g F /\ in_fragment x g))
  /\ (forall g o x,
        In g F -> In o obstacles -> in_fragment x g -> ~ in_section x o)
  /\ (Forall (fun o => address o <= bssAddress + bssSize) obstacles ->
      Forall (within bssAddress (bssAddress + bssSize)) F).
Proof.
  intros Hsz Hobs F. subst F. unfold carve.
  destruct (sweep_spec (sort_by address obstacles)
              bssAddress (bssAddress + bssSize) [])
    as (G & -> & Hasc & Hcov & Hdis & Hin).
  - lia.
  - apply sort_by_sorted.
  - apply (Permutation_Forall (Permutation_sym (sort_by_perm address obstacles))).
    exact Hobs.
  - simpl. split; [exact Hasc|]. split; [|split].
    + intros x Hx. destruct (Hcov x Hx) as [(o & Ho & Hxo)|Hfrag]; [|now right].
      left. exists o. split; [now apply (sort_by_In address) | exact Hxo].
    + intros g o x Hg Ho. apply Hdis; [exact Hg | now apply sort_by_In].
    + intros Hall. apply Hin.
      apply (Permutation_Forall (Permutation_sym (sort_by_perm address obstacles))).
      exact Hall.
Qed.

(** X28: what the carving output keeps of a partition.  For a nominal
    range of size [>= 0] and obstacles of size [>= 0] (every decoded
    field is unsigned): each point of
    [bssAddress, bssAddress + bssSize) lies either in the address extent
    of some obstacle and in no fragment, or in no obstacle and in exactly
    one fragment; the fragments come in ascending address order, each
    ending at or before the start of every later one, so no two overlap;
    each fragment is non-empty; and no fragment overlaps any obstacle.
    (Where the last fragment ends is not part of this statement; see
    [carve_within_nominal].) *)
Theorem carve_partition (bssAddress bssSize : Z) (obstacles : list Section) :
  0 <= bssSize ->
  Forall (fun o => 0 <= size o) obstacles ->
  let F := carve bssAddress bssSize obstacles in
  (forall x, bssAddress <= x < bssAddress + bssSize ->
     ((exists o, In o obstacles /\ in_section x o) /\ holders x F = 0%nat)
     \/ ((forall o, In o obstacles -> ~ in_section x o)
         /\ holders x F = 1%nat))
  /\ (forall i j f g,
        (i < j)%nat -> F !! i = Some f -> F !! j = Some g ->
        bss_address f < bss_address g
        /\ bss_address f + bss_size f <= bss_address g)
  /\ (forall i j f g x,
        i <> j -> F !! i = Some f -> F !! j = Some g ->
        in_fragment x f -> ~ in_fragment x g)
  /\ (forall f, In f F -> 0 < bss_size f)
  /\ (forall f o x,
        In f F -> In o obstacles -> in_fragment x f -> ~ in_section x o).
Proof.
  intros Hsz Hobs F.
  destruct (carve_spec bssAddress bssSize obstacles Hsz Hobs)
    as (Hasc & Hcov & Hdis & _).
  fold F in Hasc, Hcov, Hdis.
  assert (Hord : forall i j f g,
            (i < j)%nat -> F !! i = Some f -> F !! j = Some g ->
            bss_address f < bss_address g
            /\ bss_address f + bss_size f <= bss_address g).
  { intros i j f g Hij Hi Hj.
    pose proof (ascending_ordered F _ i j f g Hasc Hij Hi Hj) as Hle.
    assert (Hf : In f F)
      by (apply list_elem_of_In, list_elem_of_lookup; eauto).
    destruct (ascending_lower F _ f Hasc Hf). lia. }
  split; [|split; [exact Hord|split; [|split; [|exact Hdis]]]].
  - intros x Hx. destruct (Hcov x Hx) as [(o & Ho & Hxo)|(g & Hg & Hxg)].
    + left. split; [now exists o|].
      apply holders_none. intros g Hg Hxg. now apply (Hdis g o x).
    + right. split.
      * intros o Ho. now apply (Hdis g o x).
      * now apply (holders_one F bssAddress x g).
  - intros i j f g x Hij Hi Hj Hxf Hxg.
    unfold in_fragment in Hxf, Hxg.
    destruct (Nat.lt_ge_cases i j) as [Hlt|Hge].
    + destruct (Hord i j f g Hlt Hi Hj). lia.
    + assert (Hlt : (j < i)%nat) by lia.
      destruct (Hord j i g f Hlt Hj Hi). lia.
  - intros f Hf. now destruct (ascending_lower F _ f Hasc Hf).
Qed.

(** A window cut by three obstacles, one of them inside another. *)
Lemma carve_partition_witness :
  let F := carve 0 200 [mkSection 1 150 100; mkSection 2 10 90;
                        mkSection 3 20 10] in
  (forall x, 0 <= x < 0 + 200 ->
     ((exists o, In o [mkSection 1 150 100; mkSection 2 10 90;
                       mkSection 3 20 10] /\ in_section x o)
      /\ holders x F = 0%nat)
     \/ ((forall o, In o [mkSection 1 150 100; mkSection 2 10 90;
                          mkSection 3 20 10] -> ~ in_section x o)
         /\ holders x F = 1%nat))
  /\ (forall i j f g,
        (i < j)%nat -> F !! i = Some f -> F !! j = Some g ->
        bss_address f < bss_address g
        /\ bss_address f + bss_size f <= bss_address g)
  /\ (forall i j f g x,
        i <> j -> F !! i = Some f -> F !! j = Some g ->
        in_fragment x f -> ~ in_fragment x g)
  /\ (forall f, In f F -> 0 < bss_size f)
  /\ (forall f o x,
        In f F -> In o [mkSection 1 150 100; mkSection 2 10 90;
                        mkSection 3 20 10] ->
        in_fragment x f -> ~ in_section x o).
Proof.
  apply (carve_partition 0 200
           [mkSection 1 150 100; mkSection 2 10 90; mkSection 3 20 10]).
  - lia.
  - repeat constructor; simpl; lia.
Defined.

(** An obstacle that ends at or before [current_start] changes neither
    the window nor the emitted fragments. *)
Lemma sweep_step_obstacle_before (w : Sweep) (c : Section) :
  0 <= size c ->
  current_start w <= current_end w ->
  address c + size c <= current_start w ->
  snd (sweep_step w c) = w.
Proof.
  destruct w as [cs ce em]. simpl. intros Hsz Hle Hbefore.
  destruct (sweep_step_cases cs ce em c Hsz Hle)
    as [(H1 & H2 & ->)|[(H1 & H2 & ->)|[(H1 & H2 & ->)|[(H1 & H2 & ->)
       |[(H1 & H2 & ->)|(H1 & H2 & ->)]]]]]; simpl; try reflexivity; try lia.
  f_equal. lia.
Qed.

(** When no obstacle starts beyond the end of the nominal range, every
    fragment is a sub-interval of the nominal range. *)
Lemma carve_within_nominal (bssAddress bssSize : Z) (obstacles : list Section) :
  0 <= bssSize ->
  Forall (fun o => 0 <= size o) obstacles ->
  Forall (fun o => address o <= bssAddress + bssSize) obstacles ->
  Forall (within bssAddress (bssAddress + bssSize))
         (carve bssAddress bssSize obstacles).
Proof.
  intros Hsz Hobs Hstart.
  now apply (carve_spec bssAddress bssSize obstacles Hsz Hobs).
Qed.

(** C1: every emitted fragment should be a sub-interval of the nominal
    range, and an obstacle that starts at or beyond [current_end] should
    leave the window and the emitted fragments alone.  The sweep does
    otherwise on a header with one text section at 0x80004000 (size
    0x100) and the nominal BSS range [0x80003400, 0x80003500): the
    iteration takes the branch "overlapping from the right or contained",
    emits the fragment [0x80003400, 0x80004000) and closes the window, so
    the header carries a BSS section of size 0xC00 that reaches 0xB00
    bytes past the nominal range; the validator accepts this image. *)
Theorem carve_obstacle_beyond_window :
  let text := mkSection 0x100 0x80004000 0x100 in
  let img := image [text] [] 0x80003400 0x100 0x80004000 in
  sweep_step (mkSweep 0x80003400 0x80003500 []) text
    = (Break, mkSweep 0x80003500 0x80003500 [mkBss 0x80003400 0xc00])
  /\ carve 0x80003400 0x100 [text] = [mkBss 0x80003400 0xc00]
  /\ ~ within 0x80003400 (0x80003400 + 0x100) (mkBss 0x80003400 0xc00)
  /\ parseHeader img
     = Some (mkHeader [text] [] [mkBss 0x80003400 0xc00] 0x80004000)
  /\ is_valid_for_data (img ++ repeat x00 0x11c) = Some true.
Proof.
  cbv zeta. split; [|split; [|split; [|split]]].
  - vm_compute. reflexivity.
  - vm_compute. reflexivity.
  - unfold within. simpl. lia.
  - vm_compute. reflexivity.
  - vm_compute. reflexivity.
Qed.

(** C2: the carving output should be a partition of the uncovered part
    of the nominal range.  On the header with one text section at
    0x80004000 (size 0x100) and the nominal BSS range
    [0x80003400, 0x80003500) it is not: the only fragment is
    [0x80003400, 0x80004000), so the address 0x80003a00 lies in a
    fragment although it is outside the nominal range and in no
    obstacle, and the points of the fragments are not the uncovered
    points of the nominal range. *)
Theorem carve_not_the_uncovered_part :
  let text := mkSection 0x100 0x80004000 0x100 in
  let F := carve 0x80003400 0x100 [text] in
  F = [mkBss 0x80003400 0xc00]
  /\ (exists g, In g F /\ in_fragment 0x80003a00 g)
  /\ ~ (0x80003400 <= 0x80003a00 < 0x80003400 + 0x100)
  /\ ~ in_section 0x80003a00 text
  /\ ~ (forall x,
          (exists g, In g F /\ in_fragment x g)
          <-> (0x80003400 <= x < 0x80003400 + 0x100
               /\ forall o, In o [text] -> ~ in_section x o))
  /\ parseHeader (image [text] [] 0x80003400 0x100 0x80004000)
     = Some (mkHeader [text] [] F 0x80004000).
Proof.
  cbv zeta.
  assert (E : carve 0x80003400 0x100 [mkSection 0x100 0x80004000 0x100]
              = [mkBss 0x80003400 0xc00]) by (vm_compute; reflexivity).
  rewrite E.
  assert (Hin : exists g, In g [mkBss 0x80003400 0xc00]
                          /\ in_fragment 0x80003a00 g).
  { exists (mkBss 0x80003400 0xc00). split; [now left|].
    unfold in_fragment. simpl. lia. }
  split; [reflexivity|]. split; [exact Hin|]. split; [lia|].
  split; [unfold in_section; simpl; lia|]. split.
  - intros Hiff. apply (Hiff 0x80003a00) in Hin. lia.
  - vm_compute. reflexivity.
Qed.

(** Carving without obstacles. *)
Lemma carve_no_obstacles (bssAddress bssSize : Z) :
  0 <= bssSize ->
  carve bssAddress bssSize []
  = if bssSize =? 0 then [] else [mkBss bssAddress bssSize].
Proof.
  intros Hsz. unfold carve, flush. simpl.
  destruct (Z.eqb_spec bssSize 0) as [->|Hne].
  - rewrite Z.add_0_r, Z.ltb_irrefl. reflexivity.
  - destruct (Z.ltb_spec bssAddress (bssAddress + bssSize)); [|lia].
    do 2 f_equal. lia.
Qed.

(** C7: if the decoded bss address field is zero the header has no BSS
    section; if it is non-zero and the header has neither text nor data
    sections, the BSS list is the single fragment
    [bssAddress, bssAddress + bssSize), or empty when [bssSize = 0]. *)
Theorem bss_without_obstacles (data : list byte) (header : Header) :
  parseHeader data = Some header ->
  (bssAddress_field data = Some 0 -> bssSections header = [])
  /\ (forall bssAddress bssSize,
        bssAddress_field data = Some bssAddress ->
        bssSize_field data = Some bssSize ->
        bssAddress <> 0 ->
        textSections header = [] ->
        dataSections header = [] ->
        bssSections header
        = if bssSize =? 0 then [] else [mkBss bssAddress bssSize]).
Proof.
  intros Hparse.
  destruct (parseHeader_inv data header Hparse)
    as (a & sz & Ha & Hs & _ & Hsz & _ & Hbss).
  split.
  - intros H0. rewrite Ha in H0. injection H0 as ->.
    rewrite Hbss. reflexivity.
  - intros a' sz' Ha' Hs' Hne Ht Hd.
    rewrite Ha in Ha'. injection Ha' as <-.
    rewrite Hs in Hs'. injection Hs' as <-.
    rewrite Hbss, Ht, Hd. apply Z.eqb_neq in Hne. rewrite Hne. simpl negb.
    cbv iota. apply carve_no_obstacles. unfold u32 in Hsz. lia.
Qed.

(** A header image with no section and the BSS range
    [0x80003400, 0x80003500). *)
Lemma bss_without_obstacles_witness :
  let data := image [] [] 0x80003400 0x100 0 in
  let header := mkHeader [] [] [mkBss 0x80003400 0x100] 0 in
  parseHeader data = Some header
  /\ (bssAddress_field data = Some 0 -> bssSections header = [])
  /\ (forall bssAddress bssSize,
        bssAddress_field data = Some bssAddress ->
        bssSize_field data = Some bssSize ->
        bssAddress <> 0 ->
        textSections header = [] ->
        dataSections header = [] ->
        bssSections header
        = if bssSize =? 0 then [] else [mkBss bssAddress bssSize]).
Proof.
  cbv zeta. split; [vm_compute; reflexivity|].
  apply (bss_without_obstacles (image [] [] 0x80003400 0x100 0)).
  vm_compute. reflexivity.
Defined.

(** ** validateHeader *)

Lemma validateHeader_checks (header : Header) (filesize : Z) :
  validateHeader header filesize
  = other_checks header filesize
    && existsb (contains_entrypoint (entrypoint header)) (textSections header).
Proof.
  unfold validateHeader, other_checks. cbv zeta.
  destruct (length (textSections header) <? 1)%nat; [reflexivity|].
  destruct (existsb (outside_file filesize) _); [reflexivity|].
  destruct (existsb outside_memory _); [reflexivity|].
  destruct (adjacent_overlap offset size _); [reflexivity|].
  destruct (adjacent_overlap any_address any_size _); [reflexivity|].
  destruct (existsb (contains_entrypoint (entrypoint header)) _); reflexivity.
Qed.

Lemma outside_file_mono (filesize filesize' : Z) (l : list Section) :
  filesize < filesize' ->
  existsb (outside_file filesize) l = false ->
  existsb (outside_file filesize') l = false.
Proof.
  intros Hlt. induction l as [|s l IH]; simpl; [trivial|].
  rewrite !orb_false_iff. intros [Hs Hl]. split; [|now apply IH].
  unfold outside_file in *. rewrite Z.gtb_ltb in *.
  apply Z.ltb_ge in Hs. apply Z.ltb_ge. lia.
Qed.

(** C5: the validator is monotone in the file size.  A header accepted
    with [filesize] is accepted with every larger [filesize']. *)
Theorem validateHeader_monotone (header : Header) (filesize filesize' : Z) :
  filesize < filesize' ->
  validateHeader header filesize = true ->
  validateHeader header filesize' = true.
Proof.
  intros Hlt. unfold validateHeader. cbv zeta.
  destruct (length (textSections header) <? 1)%nat; [trivial|].
  destruct (existsb (outside_file filesize) _) eqn:E; [discriminate|].
  now rewrite (outside_file_mono filesize filesize' _ Hlt E).
Qed.

(** The header of the example scenario, accepted at its file size 0x400
    and at 0x10000. *)
Lemma validateHeader_monotone_witness :
  let header := mkHeader [mkSection 0x100 0x80003100 0x200] []
                         [mkBss 0x80003400 0x100] 0x80003100 in
  validateHeader header 0x400 = true /\ validateHeader header 0x10000 = true.
Proof.
  cbv zeta. split; [vm_compute; reflexivity|].
  apply (validateHeader_monotone
           (mkHeader [mkSection 0x100 0x80003100 0x200] []
                     [mkBss 0x80003400 0x100] 0x80003100) 0x400 0x10000).
  - lia.
  - vm_compute. reflexivity.
Defined.

(** The entry point one past the end of a section is outside it. *)
Lemma contains_entrypoint_end (s : Section) :
  contains_entrypoint (address s + size s) s = false.
Proof.
  unfold contains_entrypoint. rewrite Z.ltb_irrefl. apply andb_false_r.
Qed.

Lemma contains_entrypoint_start (s : Section) :
  0 < size s -> contains_entrypoint (address s) s = true.
Proof.
  intros Hsz. unfold contains_entrypoint.
  rewrite Z.leb_refl. simpl. apply Z.ltb_lt. lia.
Qed.

(** C4, as the code has it: the entry point check uses the half-open
    extent [address, address + size).  A header whose entry point equals
    a text section's [address + size] and lies in no other text section
    is rejected; a header whose entry point equals the address of a text
    section of non-zero size is accepted when the other checks pass. *)
Theorem entrypoint_half_open (header : Header) (filesize : Z) (s : Section) :
  In s (textSections header) ->
  (entrypoint header = address s + size s ->
   (forall s', In s' (textSections header) -> s' <> s ->
      contains_entrypoint (entrypoint header) s' = false) ->
   validateHeader header filesize = false)
  /\ (entrypoint header = address s ->
      0 < size s ->
      other_checks header filesize = true ->
      validateHeader header filesize = true).
Proof.
  intros Hin. rewrite validateHeader_checks. split.
  - intros Hep Hothers.
    assert (E : existsb (contains_entrypoint (entrypoint header))
                        (textSections header) = false).
    { destruct (existsb _ _) eqn:E; [|reflexivity].
      apply existsb_exists in E. destruct E as (s' & Hs' & Hc).
      rewrite Hothers in Hc; [discriminate Hc | exact Hs' |].
      intros ->. rewrite Hep, contains_entrypoint_end in Hc. discriminate Hc. }
    rewrite E. apply andb_false_r.
  - intros Hep Hsz Hchecks. rewrite Hchecks. simpl.
    apply existsb_exists. exists s. split; [exact Hin|].
    rewrite Hep. now apply contains_entrypoint_start.
Qed.

(** Two text sections back to back: the entry point at the end of the
    first is the start of the second, and the entry point 0x80003500 is
    at the end of the second and in no section. *)
Lemma entrypoint_half_open_witness :
  let t0 := mkSection 0x100 0x80003100 0x200 in
  let t1 := mkSection 0x300 0x80003300 0x200 in
  (validateHeader (mkHeader [t0; t1] [] [] 0x80003500) 0x500 = false)
  /\ (validateHeader (mkHeader [t0; t1] [] [] 0x80003300) 0x500 = true).
Proof.
  cbv zeta. split.
  - apply (entrypoint_half_open
             (mkHeader [mkSection 0x100 0x80003100 0x200;
                        mkSection 0x300 0x80003300 0x200] [] [] 0x80003500)
             0x500 (mkSection 0x300 0x80003300 0x200)).
    + simpl. right. left. reflexivity.
    + reflexivity.
    + simpl. intros s' [<-|[<-|[]]] Hne.
      * vm_compute. reflexivity.
      * now destruct Hne.
  - apply (entrypoint_half_open
             (mkHeader [mkSection 0x100 0x80003100 0x200;
                        mkSection 0x300 0x80003300 0x200] [] [] 0x80003300)
             0x500 (mkSection 0x300 0x80003300 0x200)).
    + simpl. right. left. reflexivity.
    + reflexivity.
    + simpl. lia.
    + vm_compute. reflexivity.
Defined.

(** C4 as stated fails at a text section of size 0: its address is the
    entry point, the five other checks pass, and the header, which
    [parseHeader] returns for the image shown, is rejected. *)
Lemma entrypoint_at_empty_section :
  let s := mkSection 0x100 0x80003100 0 in
  let header := mkHeader [s] [] [] 0x80003100 in
  In s (textSections header)
  /\ entrypoint header = address s
  /\ other_checks header 0x100 = true
  /\ validateHeader header 0x100 = false
  /\ parseHeader (image [s] [] 0 0 0x80003100) = Some header.
Proof.
  cbv zeta. split; [now left|].
  split; [reflexivity|]. split; [vm_compute; reflexivity|].
  split; vm_compute; reflexivity.
Qed.

(** ** is_valid_for_data *)




(** The validator is never handed a buffer [parseHeader] fails on. *)
Lemma is_valid_for_data_total (data : list byte) :
  exists b, is_valid_for_data data = Some b.
Proof.
  unfold is_valid_for_data. cbv zeta.
  destruct (length (firstn 0xe4 data) <? 0xe4)%nat eqn:E; [now exists false|].
  apply Nat.ltb_ge in E.
  destruct (parseHeader_succeeds (firstn 0xe4 data) E) as [h ->].
  simpl. eauto.
Qed.

(** ** validateHeader over the store *)

Section StoreFacts.
Import Store.

Lemma preserved_refl (σ : gmap nat (list AnySection)) : preserved σ σ.
Proof. intros l v H. exact H. Qed.

(** Writing to a location that [σ0] does not hold keeps [σ0]. *)
Lemma preserved_insert (σ0 σ : gmap nat (list AnySection)) (l : nat)
    (v : list AnySection) :
  preserved σ0 σ -> σ0 !! l = None -> preserved σ0 (<[l := v]> σ).
Proof.
  intros Hp Hnone l' v' Hl'.
  rewrite lookup_insert_ne; [now apply Hp|].
  intros ->. rewrite Hnone in Hl'. discriminate Hl'.
Qed.

Lemma preserved_fresh (σ0 σ : gmap nat (list AnySection)) (l : nat) :
  preserved σ0 σ -> σ !! l = None -> σ0 !! l = None.
Proof.
  intros Hp Hnone. destruct (σ0 !! l) as [v|] eqn:E; [|reflexivity].
  apply Hp in E. rewrite Hnone in E. discriminate E.
Qed.

Lemma new_list_spec (v : list AnySection) (σ : gmap nat (list AnySection)) :
  exists l, new_list v σ = Some (l, <[l := v]> σ) /\ σ !! l = None.
Proof.
  exists (fresh (dom σ)). split; [reflexivity|].
  apply not_elem_of_dom, is_fresh.
Qed.

Lemma deref_spec (l : nat) (v : list AnySection)
    (σ : gmap nat (list AnySection)) :
  σ !! l = Some v -> deref l σ = Some (v, σ).
Proof. intros H. unfold deref. now rewrite H. Qed.

Lemma list_concat_spec (l1 l2 : nat) (v1 v2 : list AnySection)
    (σ : gmap nat (list AnySection)) :
  σ !! l1 = Some v1 -> σ !! l2 = Some v2 ->
  exists l,
    list_concat l1 l2 σ = Some (l, <[l := v1 ++ v2]> σ) /\ σ !! l = None.
Proof.
  intros H1 H2. destruct (new_list_spec (v1 ++ v2) σ) as (l & E & Hl).
  exists l. split; [|exact Hl].
  unfold list_concat, bind. now rewrite (deref_spec l1 v1), (deref_spec l2 v2).
Qed.

Lemma list_copy_spec (l0 : nat) (v : list AnySection)
    (σ : gmap nat (list AnySection)) :
  σ !! l0 = Some v ->
  exists l, list_copy l0 σ = Some (l, <[l := v]> σ) /\ σ !! l = None.
Proof.
  intros H. destruct (new_list_spec v σ) as (l & E & Hl).
  exists l. split; [|exact Hl].
  unfold list_copy, bind. now rewrite (deref_spec l0 v).
Qed.

Lemma list_sort_spec (key : AnySection -> option Z) (l : nat)
    (v : list AnySection) (σ : gmap nat (list AnySection)) :
  σ !! l = Some v ->
  Forall (fun s => is_Some (key s)) v ->
  list_sort key l σ
  = Some (tt, <[l := sort_by (fun s => default 0 (key s)) v]> σ).
Proof.
  intros H Hkeys. unfold list_sort, bind, lift.
  rewrite (deref_spec l v σ H).
  destruct (mapM key v) as [ks|] eqn:E; [reflexivity|].
  apply mapM_None_1 in E. apply List.Exists_exists in E.
  destruct E as (s & Hs & Hnone).
  rewrite List.Forall_forall in Hkeys.
  destruct (Hkeys s Hs) as [k Hk]. congruence.
Qed.

(** On lists of initialized sections the loops that read dicts of either
    kind are the loops of [validateHeader]. *)
Lemma any_outside_file_initialized (filesize : Z) (l : list Section) :
  any_outside_file filesize (map Initialized l)
  = Some (existsb (outside_file filesize) l).
Proof.
  induction l as [|s l IH]; [reflexivity|].
  simpl. unfold outside_file at 1.
  destruct (offset s + size s >? filesize); [reflexivity | exact IH].
Qed.

Lemma any_offset_overlap_initialized (l : list Section) :
  any_offset_overlap (map Initialized l) = Some (adjacent_overlap offset size l).
Proof.
  induction l as [|s1 [|s2 l] IH]; try reflexivity.
  change (any_offset_overlap (map Initialized (s1 :: s2 :: l)))
    with (if offset s1 + size s1 >? offset s2 then Some true
          else any_offset_overlap (map Initialized (s2 :: l))).
  rewrite IH. simpl. destruct (offset s1 + size s1 >? offset s2); reflexivity.
Qed.

Lemma any_contains_entrypoint_initialized (entry : Z) (l : list Section) :
  existsb (any_contains_entrypoint entry) (map Initialized l)
  = existsb (contains_entrypoint entry) l.
Proof.
  induction l as [|s l IH]; [reflexivity|]. simpl. now rewrite IH.
Qed.

Lemma offset_keys_initialized (l : list Section) :
  Forall (fun s => is_Some (any_offset s)) (map Initialized l).
Proof.
  apply List.Forall_forall. intros s Hs. apply in_map_iff in Hs.
  destruct Hs as (i & <- & _). simpl. eauto.
Qed.

End StoreFacts.

Section StoreValidator.
Import Store.

Lemma preserved_trans (σ1 σ2 σ3 : gmap nat (list AnySection)) :
  preserved σ1 σ2 -> preserved σ2 σ3 -> preserved σ1 σ3.
Proof. intros H12 H23 l v H. apply H23, H12, H. Qed.

(** Allocating at [l] and then sorting the new object in place. *)
Lemma preserved_copy_sort (σ : gmap nat (list AnySection)) (l : nat)
    (v v' : list AnySection) :
  σ !! l = None -> preserved σ (<[l := v']> (<[l := v]> σ)).
Proof.
  intros Hnone.
  apply preserved_insert; [|exact Hnone].
  apply preserved_insert; [apply preserved_refl | exact Hnone].
Qed.

Lemma represents_preserved (σ σ' : gmap nat (list AnySection))
    (r : HeaderRef) (h : Header) :
  preserved σ σ' -> represents σ r h -> represents σ' r h.
Proof.
  intros Hp (Ht & Hd & Hb & He).
  repeat split; [apply Hp, Ht | apply Hp, Hd | apply Hp, Hb | exact He].
Qed.

Lemma sort_by_offset_initialized (l : list Section) :
  sort_by (fun s => default 0 (any_offset s)) (map Initialized l)
  = map Initialized (sort_by offset l).
Proof. apply (sort_by_map (fun s => default 0 (any_offset s)) Initialized). Qed.

Ltac returns σ' Hp Hrep :=
  exists σ'; split; [reflexivity|];
  split; [exact Hp | exact (represents_preserved _ _ _ _ Hp Hrep)].

(** C9: the validator leaves its input alone.  Run on a store that holds
    the three section lists of a header, [validateHeader] returns the
    verdict of the pure predicate, and every list object that existed
    before the call, the header's three lists among them, has the same
    content in the same order afterwards: the concatenations and the
    sorted copies are new objects, and only those are written. *)
Theorem validateHeader_frame (σ : gmap nat (list AnySection))
    (r : HeaderRef) (header : Header) (filesize : Z) :
  represents σ r header ->
  exists σ',
    validateHeader_store r filesize σ
    = Some (validateHeader header filesize, σ')
    /\ preserved σ σ'
    /\ represents σ' r header.
Proof.
  intros Hrep. pose proof Hrep as (Ht & Hd & Hb & He).
  (* initializedSections = textSections + dataSections *)
  destruct (list_concat_spec _ _ _ _ σ Ht Hd) as (l1 & E1 & F1).
  rewrite <- map_app in E1.
  set (TD := map Initialized (textSections header ++ dataSections header)) in *.
  set (B := map Uninitialized (bssSections header)) in *.
  set (σ1 := <[l1 := TD]> σ) in *.
  assert (P1 : preserved σ σ1)
    by (apply preserved_insert; [apply preserved_refl | exact F1]).
  assert (Q1 : σ1 !! l1 = Some TD) by apply lookup_insert_eq.
  (* allSections = initializedSections + bssSections *)
  destruct (list_concat_spec l1 _ TD B σ1 Q1 (P1 _ _ Hb)) as (l2 & E2 & F2).
  set (σ2 := <[l2 := TD ++ B]> σ1) in *.
  assert (P12 : preserved σ1 σ2)
    by (apply preserved_insert; [apply preserved_refl | exact F2]).
  assert (P2 : preserved σ σ2) by (eapply preserved_trans; eassumption).
  assert (Q2 : σ2 !! l2 = Some (TD ++ B)) by apply lookup_insert_eq.
  unfold validateHeader_store, validateHeader, bind. cbv zeta.
  fold TD B.
  rewrite E1, E2, (deref_spec _ _ σ2 (P2 _ _ Ht)), length_map.
  destruct (length (textSections header) <? 1)%nat; [returns σ2 P2 Hrep|].
  rewrite (deref_spec l1 _ σ2 (P12 _ _ Q1)).
  unfold TD at 1. rewrite any_outside_file_initialized. unfold lift.
  destruct (existsb (outside_file filesize) _); [returns σ2 P2 Hrep|].
  rewrite (deref_spec l2 _ σ2 Q2).
  destruct (existsb outside_memory (TD ++ B)); [returns σ2 P2 Hrep|].
  (* sectionsByOffset = initializedSections.copy(), sorted in place *)
  destruct (list_copy_spec l1 _ σ2 (P12 _ _ Q1)) as (l3 & E3 & F3).
  rewrite E3.
  rewrite (list_sort_spec any_offset l3 TD);
    [| apply lookup_insert_eq | apply offset_keys_initialized].
  replace (sort_by (fun s => default 0 (any_offset s)) TD)
    with (map Initialized
            (sort_by offset (textSections header ++ dataSections header)))
    by (symmetry; apply sort_by_offset_initialized).
  set (σ3 := <[l3 := _]> (<[l3 := TD]> σ2)).
  assert (P23 : preserved σ2 σ3) by (apply preserved_copy_sort, F3).
  assert (P3 : preserved σ σ3) by (eapply preserved_trans; eassumption).
  rewrite (deref_spec l3 _ σ3 (lookup_insert_eq _ _ _)).
  rewrite any_offset_overlap_initialized.
  destruct (adjacent_overlap offset size _); [returns σ3 P3 Hrep|].
  (* sectionsByAddress = allSections.copy(), sorted in place *)
  destruct (list_copy_spec l2 _ σ3 (P23 _ _ Q2)) as (l4 & E4 & F4).
  rewrite E4.
  rewrite (list_sort_spec (fun s => Some (any_address s)) l4 (TD ++ B));
    [| apply lookup_insert_eq | apply List.Forall_forall; simpl; eauto].
  change (sort_by (fun s => default 0 (Some (any_address s))) (TD ++ B))
    with (sort_by any_address (TD ++ B)).
  set (σ4 := <[l4 := _]> (<[l4 := TD ++ B]> σ3)).
  assert (P34 : preserved σ3 σ4) by (apply preserved_copy_sort, F4).
  assert (P4 : preserved σ σ4) by (eapply preserved_trans; eassumption).
  rewrite (deref_spec l4 _ σ4 (lookup_insert_eq _ _ _)).
  destruct (adjacent_overlap any_address any_size _); [returns σ4 P4 Hrep|].
  rewrite any_contains_entrypoint_initialized, He.
  destruct (existsb (contains_entrypoint (entrypoint header)) _);
    returns σ4 P4 Hrep.
Qed.

(** A store whose text list is out of address order, so that both sorted
    copies differ from the lists they were copied from. *)
Lemma validateHeader_frame_witness :
  let t_hi := mkSection 0x300 0x80003300 0x200 in
  let t_lo := mkSection 0x100 0x80003100 0x200 in
  let bss := mkBss 0x80003500 0x100 in
  let header := mkHeader [t_hi; t_lo] [] [bss] 0x80003100 in
  let r := mkHeaderRef 0 1 2 0x80003100 in
  let σ : gmap nat (list AnySection) :=
    <[0%nat := [Initialized t_hi; Initialized t_lo]]>
      (<[1%nat := []]> (<[2%nat := [Uninitialized bss]]> ∅)) in
  represents σ r header
  /\ exists σ',
       validateHeader_store r 0x500 σ
       = Some (validateHeader header 0x500, σ')
       /\ preserved σ σ'
       /\ represents σ' r header.
Proof.
  cbv zeta.
  assert (H : represents
                (<[0%nat := [Initialized (mkSection 0x300 0x80003300 0x200);
                             Initialized (mkSection 0x100 0x80003100 0x200)]]>
                   (<[1%nat := []]>
                      (<[2%nat := [Uninitialized (mkBss 0x80003500 0x100)]]>
                         (∅ : gmap nat (list AnySection)))))
                (mkHeaderRef 0 1 2 0x80003100)
                (mkHeader [mkSection 0x300 0x80003300 0x200;
                           mkSection 0x100 0x80003100 0x200] []
                          [mkBss 0x80003500 0x100] 0x80003100)).
  { unfold represents. simpl. repeat split; reflexivity. }
  split; [exact H|].
  apply (validateHeader_frame _ _ _ 0x500 H).
Defined.

End StoreValidator.

(** * Further properties *)

(** ** What an accepted header satisfies *)

Lemma lookup_nth_error {A : Type} (l : list A) (i : nat) :
  l !! i = nth_error l i.
Proof.
  revert i. induction l as [|x l IH]; intros [|i]; simpl; auto.
Qed.

Lemma validateHeader_true_inv (header : Header) (filesize : Z) :
  validateHeader header filesize = true ->
  (length (textSections header) <? 1)%nat = false
  /\ existsb (outside_file filesize) (initializedSections header) = false
  /\ existsb outside_memory (allSections header) = false
  /\ adjacent_overlap offset size
       (sort_by offset (initializedSections header)) = false
  /\ adjacent_overlap any_address any_size
       (sort_by any_address (allSections header)) = false
  /\ existsb (contains_entrypoint (entrypoint header))
             (textSections header) = true.
Proof.
  rewrite validateHeader_checks. unfold other_checks. cbv zeta.
  fold (initializedSections header). fold (allSections header).
  rewrite !andb_true_iff, !negb_true_iff. tauto.
Qed.

Lemma outside_memory_false (s : AnySection) :
  outside_memory s = false <-> in_memory s.
Proof.
  unfold outside_memory, in_memory.
  rewrite orb_false_iff, !negb_false_iff, !andb_true_iff,
    !Z.leb_le, Z.ltb_lt.
  tauto.
Qed.

Lemma validateHeader_invariants (header : Header) (filesize : Z) :
  validateHeader header filesize = true ->
  (1 <= length (textSections header))%nat
  /\ (forall s, In s (initializedSections header) ->
        offset s + size s <= filesize)
  /\ (forall s, In s (allSections header) -> in_memory s)
  /\ (exists s, In s (textSections header)
        /\ address s <= entrypoint header < address s + size s).
Proof.
  intros H.
  destruct (validateHeader_true_inv header filesize H)
    as (Hlen & Hfile & Hmem & _ & _ & Hentry).
  split; [apply Nat.ltb_ge in Hlen; exact Hlen|]. split; [|split].
  - intros s Hs.
    destruct (Z.gtb_spec (offset s + size s) filesize) as [Hgt|Hle];
      [|exact Hle].
    exfalso. apply not_true_iff_false in Hfile. apply Hfile.
    apply existsb_exists. exists s. split; [exact Hs|].
    unfold outside_file. now apply Z.gtb_lt.
  - intros s Hs. apply outside_memory_false.
    destruct (outside_memory s) eqn:E; [|reflexivity].
    rewrite <- Hmem. symmetry. apply existsb_exists. now exists s.
  - apply existsb_exists in Hentry. destruct Hentry as (s & Hs & Hc).
    exists s. split; [exact Hs|].
    unfold contains_entrypoint in Hc.
    apply andb_true_iff in Hc. destruct Hc as [Hlo Hhi].
    apply Z.leb_le in Hlo. apply Z.ltb_lt in Hhi. lia.
Qed.

(** X1: an accepted header has a text section, every text and data
    section ends inside the file, every section of any kind has both ends
    of its address extent in [0x80000000, 0x81800000], and the entry
    point lies in the half-open address extent of a text section. *)
Theorem validateHeader_sound (header : Header) (filesize : Z) :
  validateHeader header filesize = true ->
  (1 <= length (textSections header))%nat
  /\ (forall s, In s (initializedSections header) ->
        offset s + size s <= filesize)
  /\ (forall s, In s (allSections header) -> in_memory s)
  /\ (exists s, In s (textSections header)
        /\ address s <= entrypoint header < address s + size s).
Proof.
  exact (validateHeader_invariants header filesize).
Qed.

Lemma validateHeader_sound_witness :
  let header := mkHeader [mkSection 0x100 0x80003100 0x200] []
                         [mkBss 0x80003400 0x100] 0x80003100 in
  (1 <= length (textSections header))%nat
  /\ (forall s, In s (initializedSections header) ->
        offset s + size s <= 0x400)
  /\ (forall s, In s (allSections header) -> in_memory s)
  /\ (exists s, In s (textSections header)
        /\ address s <= entrypoint header < address s + size s).
Proof.
  cbv zeta.
  apply (validateHeader_sound
           (mkHeader [mkSection 0x100 0x80003100 0x200] []
                     [mkBss 0x80003400 0x100] 0x80003100) 0x400).
  vm_compute. reflexivity.
Defined.

(** In a list sorted by [key] whose adjacent pairs pass the overlap test,
    every element ends at or before the start of every later one. *)
Lemma adjacent_overlap_sorted {A : Type} (key sz : A -> Z) (l : list A) :
  StronglySorted (key_le key) l ->
  adjacent_overlap key sz l = false ->
  forall i j a b,
    (i < j)%nat -> l !! i = Some a -> l !! j = Some b ->
    key a + sz a <= key b.
Proof.
  induction 1 as [|a0 l Hsorted IH Hall]; intros Hadj i j a b Hij Hi Hj;
    [discriminate Hi|].
  destruct j as [|j]; [lia|]. simpl in Hj.
  assert (Hrest : adjacent_overlap key sz l = false).
  { destruct l as [|a1 l]; [reflexivity|]. simpl in Hadj.
    destruct (key a0 + sz a0 >? key a1); [discriminate Hadj | exact Hadj]. }
  destruct i as [|i].
  - injection Hi as <-.
    destruct l as [|a1 l]; [discriminate Hj|].
    simpl in Hadj. destruct (Z.gtb_spec (key a0 + sz a0) (key a1)) as [|Hle];
      [discriminate Hadj|].
    destruct j as [|j].
    + injection Hj as <-. exact Hle.
    + simpl in Hj. inversion Hsorted as [|? ? _ Hall1]; subst.
      rewrite List.Forall_forall in Hall1.
      assert (Hb : In b l)
        by (apply list_elem_of_In, list_elem_of_lookup; eauto).
      specialize (Hall1 b Hb). unfold key_le in Hall1. lia.
  - simpl in Hi. apply (IH Hrest i j a b); [lia | assumption | assumption].
Qed.

(** Two distinct positions of a list are two distinct positions of any
    permutation of it. *)
Lemma Permutation_two_positions {A : Type} (l l' : list A) (i j : nat) (a b : A) :
  Permutation l' l -> i <> j -> l !! i = Some a -> l !! j = Some b ->
  exists i' j', i' <> j' /\ l' !! i' = Some a /\ l' !! j' = Some b.
Proof.
  intros Hperm Hij Hi Hj.
  apply Permutation_nth_error in Hperm.
  destruct Hperm as (_ & f & Hinj & Hf).
  exists (f i), (f j). split; [|split].
  - intros E. apply Hij. now apply Hinj.
  - rewrite lookup_nth_error, <- Hf, <- lookup_nth_error. exact Hi.
  - rewrite lookup_nth_error, <- Hf, <- lookup_nth_error. exact Hj.
Qed.

(** The overlap test on the sorted copy speaks for the list itself: no
    point lies in the extents of two of its elements. *)
Lemma adjacent_overlap_disjoint {A : Type} (key sz : A -> Z) (l : list A) :
  adjacent_overlap key sz (sort_by key l) = false ->
  forall i j a b x,
    i <> j -> l !! i = Some a -> l !! j = Some b ->
    key a <= x < key a + sz a -> ~ (key b <= x < key b + sz b).
Proof.
  intros Hadj i j a b x Hij Hi Hj Ha Hb.
  destruct (Permutation_two_positions l (sort_by key l) i j a b
              (sort_by_perm key l) Hij Hi Hj) as (i' & j' & Hij' & Hi' & Hj').
  pose proof (adjacent_overlap_sorted key sz _ (sort_by_sorted key l) Hadj)
    as Hord.
  destruct (Nat.lt_ge_cases i' j') as [Hlt|Hge].
  - specialize (Hord i' j' a b Hlt Hi' Hj'). lia.
  - assert (Hlt : (j' < i')%nat) by lia.
    specialize (Hord j' i' b a Hlt Hj' Hi'). lia.
Qed.

(** X2: in an accepted header no address belongs to two sections: the
    address extents of the sections at two distinct positions of
    [textSections + dataSections + bssSections] share no point. *)
Theorem validateHeader_address_disjoint (header : Header) (filesize : Z) :
  validateHeader header filesize = true ->
  forall i j a b x,
    i <> j ->
    allSections header !! i = Some a ->
    allSections header !! j = Some b ->
    in_any x a -> ~ in_any x b.
Proof.
  intros H.
  destruct (validateHeader_true_inv header filesize H)
    as (_ & _ & _ & _ & Haddr & _).
  exact (adjacent_overlap_disjoint any_address any_size _ Haddr).
Qed.

(** X3: in an accepted header no file offset belongs to two initialized
    sections: the file extents of the sections at two distinct positions
    of [textSections + dataSections] share no point. *)
Theorem validateHeader_file_disjoint (header : Header) (filesize : Z) :
  validateHeader header filesize = true ->
  forall i j a b x,
    i <> j ->
    initializedSections header !! i = Some a ->
    initializedSections header !! j = Some b ->
    in_file x a -> ~ in_file x b.
Proof.
  intros H.
  destruct (validateHeader_true_inv header filesize H)
    as (_ & _ & _ & Hoff & _ & _).
  exact (adjacent_overlap_disjoint offset size _ Hoff).
Qed.

(** ** More on parseSections *)

Lemma parseSections_loop_prefix (offsets addresses sizes : list Z) :
  length addresses = length offsets ->
  length sizes = length offsets ->
  forall n start acc,
    (start + n = length offsets)%nat ->
    parseSections_loop offsets addresses sizes (seq start n) acc
    = Some (acc ++ present_prefix
                     (zip_sections (drop start offsets) (drop start addresses)
                                   (drop start sizes))).
Proof.
  intros Ha Hs. induction n as [|n IH]; intros start acc Hlen.
  - simpl. rewrite !drop_ge by lia. simpl. now rewrite app_nil_r.
  - destruct (lookup_lt_is_Some_2 offsets start) as [o Ho]; [lia|].
    destruct (lookup_lt_is_Some_2 addresses start) as [a Hja]; [lia|].
    destruct (lookup_lt_is_Some_2 sizes start) as [s Hjs]; [lia|].
    rewrite (drop_S offsets o start Ho), (drop_S addresses a start Hja),
      (drop_S sizes s start Hjs).
    simpl. rewrite Ho, Hja, Hjs.
    destruct (o =? 0); [now rewrite app_nil_r|].
    rewrite IH by lia. now rewrite <- app_assoc.
Qed.

Lemma parseSections_present_prefix (offsets addresses sizes : list Z) :
  length addresses = length offsets ->
  length sizes = length offsets ->
  parseSections offsets addresses sizes
  = Some (present_prefix (zip_sections offsets addresses sizes)).
Proof.
  intros Ha Hs. unfold parseSections.
  now rewrite (parseSections_loop_prefix offsets addresses sizes Ha Hs).
Qed.

(** X4: on three arrays of one length, the index loop of [parseSections]
    with its [break] returns the slots ahead of the first zero offset,
    each slot being the triple found at one index of the three arrays. *)
Theorem parseSections_prefix (offsets addresses sizes : list Z) :
  length addresses = length offsets ->
  length sizes = length offsets ->
  parseSections offsets addresses sizes
  = Some (present_prefix (zip_sections offsets addresses sizes)).
Proof.
  exact (parseSections_present_prefix offsets addresses sizes).
Qed.

Lemma parseSections_prefix_witness :
  parseSections [0x100; 0x300; 0; 0x900] [0x80003100; 0x80003300; 5; 6]
                [0x200; 0x100; 7; 8]
  = Some (present_prefix
            (zip_sections [0x100; 0x300; 0; 0x900]
                          [0x80003100; 0x80003300; 5; 6]
                          [0x200; 0x100; 7; 8])).
Proof.
  apply (parseSections_prefix [0x100; 0x300; 0; 0x900]
           [0x80003100; 0x80003300; 5; 6] [0x200; 0x100; 7; 8]);
    reflexivity.
Defined.

Lemma present_prefix_all (slots : list Section) :
  Forall (fun s => offset s <> 0) slots -> present_prefix slots = slots.
Proof.
  induction 1 as [|s slots Hs _ IH]; [reflexivity|].
  simpl. apply Z.eqb_neq in Hs. now rewrite Hs, IH.
Qed.

Lemma zip_sections_length (offsets addresses sizes : list Z) :
  length addresses = length offsets ->
  length sizes = length offsets ->
  length (zip_sections offsets addresses sizes) = length offsets.
Proof.
  revert addresses sizes.
  induction offsets as [|o offsets IH]; intros [|a addresses] [|s sizes];
    simpl; try discriminate; try reflexivity.
  intros Ha Hs. f_equal. apply IH; lia.
Qed.

Lemma zip_sections_offsets (offsets addresses sizes : list Z) :
  Forall (fun o => o <> 0) offsets ->
  Forall (fun s => offset s <> 0) (zip_sections offsets addresses sizes).
Proof.
  intros H. revert addresses sizes.
  induction H as [|o offsets Ho _ IH]; intros [|a addresses] [|s sizes];
    simpl; constructor; auto.
Qed.

(** X5: a table without a zero offset is decoded in full: the loop runs
    to the end of the range and returns one section per slot. *)
Theorem parseSections_all_present (offsets addresses sizes : list Z) :
  length addresses = length offsets ->
  length sizes = length offsets ->
  Forall (fun o => o <> 0) offsets ->
  exists sections,
    parseSections offsets addresses sizes = Some sections
    /\ sections = zip_sections offsets addresses sizes
    /\ length sections = length offsets.
Proof.
  intros Ha Hs Hnz. exists (zip_sections offsets addresses sizes).
  split; [|split; [reflexivity | now apply zip_sections_length]].
  rewrite parseSections_present_prefix by assumption.
  now rewrite present_prefix_all by now apply zip_sections_offsets.
Qed.

Lemma parseSections_all_present_witness :
  exists sections,
    parseSections [0x100; 0x300] [0x80003100; 0x80003300] [0x200; 0x100]
    = Some sections
    /\ sections = zip_sections [0x100; 0x300] [0x80003100; 0x80003300]
                               [0x200; 0x100]
    /\ length sections = length [0x100; 0x300].
Proof.
  apply (parseSections_all_present [0x100; 0x300] [0x80003100; 0x80003300]
           [0x200; 0x100]).
  - reflexivity.
  - reflexivity.
  - repeat constructor; lia.
Defined.

Lemma parseSections_loop_short (offsets addresses sizes : list Z) (i : nat) :
  (forall j o, (j <= i)%nat -> offsets !! j = Some o -> o <> 0) ->
  (length addresses <= i)%nat \/ (length sizes <= i)%nat ->
  forall n start acc,
    (start + n = length offsets)%nat -> (start <= i)%nat ->
    (i < length offsets)%nat ->
    parseSections_loop offsets addresses sizes (seq start n) acc = None.
Proof.
  intros Hnz Hshort. induction n as [|n IH]; intros start acc Hlen Hstart Hi.
  - lia.
  - simpl. destruct (lookup_lt_is_Some_2 offsets start) as [o Ho]; [lia|].
    rewrite Ho. specialize (Hnz start o Hstart Ho).
    apply Z.eqb_neq in Hnz. rewrite Hnz.
    destruct (addresses !! start) as [a|] eqn:Hja; [|reflexivity].
    destruct (sizes !! start) as [s|] eqn:Hjs; [|reflexivity].
    apply lookup_lt_Some in Hja, Hjs.
    apply IH; lia.
Qed.

(** X6: [parseSections] reads [addresses[i]] and [sizes[i]] without a
    bounds check: when the offsets are non-zero up to a slot [i] that one
    of the two other arrays does not have, the call raises. *)
Theorem parseSections_index_error (offsets addresses sizes : list Z) (i : nat) :
  (i < length offsets)%nat ->
  (forall j o, (j <= i)%nat -> offsets !! j = Some o -> o <> 0) ->
  (length addresses <= i)%nat \/ (length sizes <= i)%nat ->
  parseSections offsets addresses sizes = None.
Proof.
  intros Hi Hnz Hshort. unfold parseSections.
  apply (parseSections_loop_short offsets addresses sizes i Hnz Hshort); lia.
Qed.

Lemma parseSections_index_error_witness :
  parseSections [0x100; 0x300; 0x500] [0x80003100; 0x80003300; 0x80003500]
                [0x200; 0x100] = None.
Proof.
  apply (parseSections_index_error [0x100; 0x300; 0x500]
           [0x80003100; 0x80003300; 0x80003500] [0x200; 0x100] 2).
  - simpl. lia.
  - intros [|[|[|j]]] o Hj; simpl; intros [= <-]; lia.
  - right. simpl. lia.
Defined.

(** ** More on parseHeader *)

Lemma unpack_L_inv (n : nat) :
  forall bs vs,
    unpack_L n bs = Some vs ->
    length bs = (4 * n)%nat /\ length vs = n /\ Forall u32 vs.
Proof.
  induction n as [|n IH]; intros bs vs H.
  - destruct bs; [|discriminate H]. injection H as <-.
    repeat split. constructor.
  - destruct bs as [|b0 [|b1 [|b2 [|b3 rest]]]]; try discriminate H.
    simpl in H. destruct (unpack_L n rest) as [vs'|] eqn:E; [|discriminate H].
    injection H as <-. destruct (IH rest vs' E) as (Hl & Hv & Hr).
    split; [simpl; lia|]. split; [simpl; lia|].
    constructor; [apply be32_range | exact Hr].
Qed.

Lemma unpack_L0_length (bs : list byte) (v : Z) :
  unpack_L0 bs = Some v -> length bs = 4%nat.
Proof.
  unfold unpack_L0. destruct (unpack_L 1 bs) as [vs|] eqn:E; [|discriminate].
  intros _. now destruct (unpack_L_inv 1 bs vs E).
Qed.

(** The six tables behind a decoded header. *)
Lemma parseHeader_tables (data : list byte) (h : Header) :
  parseHeader data = Some h ->
  exists textOffsets dataOffsets textAddresses dataAddresses textSizes dataSizes,
    unpack_L 7 (slice data 0x00 0x1c) = Some textOffsets
    /\ unpack_L 11 (slice data 0x1c 0x48) = Some dataOffsets
    /\ unpack_L 7 (slice data 0x48 0x64) = Some textAddresses
    /\ unpack_L 11 (slice data 0x64 0x90) = Some dataAddresses
    /\ unpack_L 7 (slice data 0x90 0xac) = Some textSizes
    /\ unpack_L 11 (slice data 0xac 0xd8) = Some dataSizes
    /\ parseSections textOffsets textAddresses textSizes
       = Some (textSections h)
    /\ parseSections dataOffsets dataAddresses dataSizes
       = Some (dataSections h).
Proof.
  unfold parseHeader. intros H.
  destruct (unpack_L 7 (slice data 0x00 0x1c)) as [tO|];
    cbn [mbind option_bind] in H; [|discriminate H].
  destruct (unpack_L 11 (slice data 0x1c 0x48)) as [dO|];
    cbn [mbind option_bind] in H; [|discriminate H].
  destruct (unpack_L 7 (slice data 0x48 0x64)) as [tA|];
    cbn [mbind option_bind] in H; [|discriminate H].
  destruct (unpack_L 11 (slice data 0x64 0x90)) as [dA|];
    cbn [mbind option_bind] in H; [|discriminate H].
  destruct (unpack_L 7 (slice data 0x90 0xac)) as [tS|];
    cbn [mbind option_bind] in H; [|discriminate H].
  destruct (unpack_L 11 (slice data 0xac 0xd8)) as [dS|];
    cbn [mbind option_bind] in H; [|discriminate H].
  destruct (unpack_L0 (slice data 0xd8 0xdc));
    cbn [mbind option_bind] in H; [|discriminate H].
  destruct (unpack_L0 (slice data 0xdc 0xe0));
    cbn [mbind option_bind] in H; [|discriminate H].
  destruct (unpack_L0 (slice data 0xe0 0xe4));
    cbn [mbind option_bind] in H; [|discriminate H].
  destruct (parseSections tO tA tS) as [text|] eqn:Et;
    cbn [mbind option_bind] in H; [|discriminate H].
  destruct (parseSections dO dA dS) as [dat|] eqn:Ed;
    cbn [mbind option_bind] in H; [|discriminate H].
  injection H as <-. exists tO, dO, tA, dA, tS, dS. simpl.
  repeat split; try reflexivity; assumption.
Qed.

(** X7: [parseHeader] raises exactly on buffers shorter than 0xE4 bytes:
    some [struct.unpack] then gets a slice that is too short, and on a
    longer buffer none does. *)
Theorem parseHeader_raises_iff_short (data : list byte) :
  parseHeader data = None <-> (length data < 0xe4)%nat.
Proof.
  split.
  - intros Hnone. destruct (Nat.lt_ge_cases (length data) 0xe4) as [|Hge];
      [assumption|].
    destruct (parseHeader_succeeds data Hge) as [h Hh]. congruence.
  - intros Hshort. destruct (parseHeader data) as [h|] eqn:E; [|reflexivity].
    exfalso. destruct (parseHeader_inv data h E)
      as (a & sz & _ & _ & _ & _ & Hentry & _).
    apply unpack_L0_length in Hentry. unfold slice in Hentry.
    rewrite length_firstn, length_skipn in Hentry. lia.
Qed.

Lemma zip_sections_fields (offsets addresses sizes : list Z) :
  Forall u32 offsets -> Forall u32 addresses -> Forall u32 sizes ->
  Forall (fun s => u32 (offset s) /\ u32 (address s) /\ u32 (size s))
         (zip_sections offsets addresses sizes).
Proof.
  intros Ho. revert addresses sizes.
  induction Ho as [|o offsets Hu _ IH]; intros addresses sizes Ha Hs;
    [constructor|].
  destruct Ha as [|a addresses Hua Ha]; [constructor|].
  destruct Hs as [|s sizes Hus Hs]; [constructor|].
  simpl. constructor; [auto | now apply IH].
Qed.

Lemma present_prefix_decoded (slots : list Section) :
  Forall (fun s => u32 (offset s) /\ u32 (address s) /\ u32 (size s)) slots ->
  Forall decoded_section (present_prefix slots)
  /\ (length (present_prefix slots) <= length slots)%nat.
Proof.
  induction 1 as [|s slots Hs _ [IH1 IH2]]; simpl.
  - split; [constructor | lia].
  - destruct (Z.eqb_spec (offset s) 0) as [|Hne].
    + split; [constructor | simpl; lia].
    + split; [|simpl; lia].
      constructor; [|exact IH1]. unfold decoded_section. tauto.
Qed.

Lemma parseSections_decoded (n : nat) (offsets addresses sizes : list Z)
    (sections : list Section) :
  length offsets = n -> length addresses = n -> length sizes = n ->
  Forall u32 offsets -> Forall u32 addresses -> Forall u32 sizes ->
  parseSections offsets addresses sizes = Some sections ->
  Forall decoded_section sections /\ (length sections <= n)%nat.
Proof.
  intros Ho Ha Hs Huo Hua Hus H.
  rewrite parseSections_present_prefix in H by lia. injection H as <-.
  destruct (present_prefix_decoded (zip_sections offsets addresses sizes))
    as [H1 H2]; [now apply zip_sections_fields|].
  split; [exact H1|].
  rewrite zip_sections_length in H2 by lia. lia.
Qed.

Lemma parseHeader_decoded_sections (data : list byte) (h : Header) :
  parseHeader data = Some h ->
  (length (textSections h) <= 7)%nat
  /\ (length (dataSections h) <= 11)%nat
  /\ Forall decoded_section (textSections h)
  /\ Forall decoded_section (dataSections h)
  /\ u32 (entrypoint h).
Proof.
  intros H.
  destruct (parseHeader_tables data h H)
    as (tO & dO & tA & dA & tS & dS & EtO & EdO & EtA & EdA & EtS & EdS
        & Ht & Hd).
  destruct (unpack_L_inv _ _ _ EtO) as (_ & LtO & UtO).
  destruct (unpack_L_inv _ _ _ EdO) as (_ & LdO & UdO).
  destruct (unpack_L_inv _ _ _ EtA) as (_ & LtA & UtA).
  destruct (unpack_L_inv _ _ _ EdA) as (_ & LdA & UdA).
  destruct (unpack_L_inv _ _ _ EtS) as (_ & LtS & UtS).
  destruct (unpack_L_inv _ _ _ EdS) as (_ & LdS & UdS).
  destruct (parseSections_decoded 7 tO tA tS _ LtO LtA LtS UtO UtA UtS Ht)
    as [Wt Nt].
  destruct (parseSections_decoded 11 dO dA dS _ LdO LdA LdS UdO UdA UdS Hd)
    as [Wd Nd].
  destruct (parseHeader_inv data h H) as (a & sz & _ & _ & _ & _ & He & _).
  repeat split; try assumption; apply (unpack_L0_range _ _ He).
Qed.

(** X8: whatever the buffer holds, a decoded header has at most 7 text
    and 11 data sections, each with a non-zero offset and three fields in
    [0, 2^32), and an entry point in [0, 2^32). *)
Theorem parseHeader_decoded (data : list byte) (h : Header) :
  parseHeader data = Some h ->
  (length (textSections h) <= 7)%nat
  /\ (length (dataSections h) <= 11)%nat
  /\ Forall decoded_section (textSections h)
  /\ Forall decoded_section (dataSections h)
  /\ u32 (entrypoint h).
Proof.
  exact (parseHeader_decoded_sections data h).
Qed.

Lemma parseHeader_decoded_witness :
  let h := mkHeader [mkSection 0x100 0x80003100 0x200] []
                    [mkBss 0x80003400 0x100] 0x80003100 in
  (length (textSections h) <= 7)%nat
  /\ (length (dataSections h) <= 11)%nat
  /\ Forall decoded_section (textSections h)
  /\ Forall decoded_section (dataSections h)
  /\ u32 (entrypoint h).
Proof.
  cbv zeta.
  apply (parseHeader_decoded
           (image [mkSection 0x100 0x80003100 0x200] []
                  0x80003400 0x100 0x80003100)).
  vm_compute. reflexivity.
Defined.

(** ** More on the carving sweep *)

Lemma sweep_covered (l : list Section) :
  forall cs ce em o,
    cs <= ce ->
    StronglySorted (key_le address) l ->
    Forall (fun c => 0 <= size c) l ->
    In o l -> address o <= cs -> ce <= address o + size o ->
    flush (sweep (mkSweep cs ce em) l) = em.
Proof.
  induction l as [|c rest IH]; intros cs ce em o Hle Hsorted Hsize Ho Hlo Hhi;
    [destruct Ho|].
  inversion Hsorted as [|? ? Hsorted' Hc]; subst.
  inversion Hsize as [|? ? Hsz Hsize']; subst.
  rewrite List.Forall_forall in Hc. unfold key_le in Hc.
  assert (Hstart : address c <= cs).
  { destruct Ho as [<-|Ho]; [exact Hlo|]. specialize (Hc o Ho). lia. }
  simpl sweep.
  destruct (sweep_step_cases cs ce em c Hsz Hle)
    as [(H1 & H2 & ->)|[(H1 & H2 & ->)|[(H1 & H2 & ->)|[(H1 & H2 & ->)
       |[(H1 & H2 & ->)|(H1 & H2 & ->)]]]]]; try lia.
  - unfold flush. simpl. now rewrite Z.ltb_irrefl.
  - destruct Ho as [<-|Ho]; [lia|].
    apply (IH _ _ _ o); try assumption; lia.
  - destruct Ho as [<-|Ho]; [lia|].
    apply (IH _ _ _ o); try assumption; lia.
  - unfold flush. simpl. subst ce. now rewrite Z.ltb_irrefl.
Qed.

(** X9: full containment.  When one obstacle covers the whole nominal
    range, whatever the other obstacles are, no BSS fragment is
    emitted. *)
Theorem carve_covered (bssAddress bssSize : Z) (obstacles : list Section)
    (o : Section) :
  0 <= bssSize ->
  Forall (fun c => 0 <= size c) obstacles ->
  In o obstacles ->
  address o <= bssAddress ->
  bssAddress + bssSize <= address o + size o ->
  carve bssAddress bssSize obstacles = [].
Proof.
  intros Hsz Hobs Ho Hlo Hhi. unfold carve.
  apply (sweep_covered _ _ _ _ o); try assumption.
  - lia.
  - apply sort_by_sorted.
  - apply (Permutation_Forall (Permutation_sym (sort_by_perm address obstacles))).
    exact Hobs.
  - now apply sort_by_In.
Qed.

Lemma carve_covered_witness :
  carve 100 50 [mkSection 1 120 10; mkSection 2 90 70; mkSection 3 10 20] = [].
Proof.
  apply (carve_covered 100 50
           [mkSection 1 120 10; mkSection 2 90 70; mkSection 3 10 20]
           (mkSection 2 90 70)).
  - lia.
  - repeat constructor; simpl; lia.
  - simpl. right. left. reflexivity.
  - simpl. lia.
  - simpl. lia.
Defined.

Lemma sweep_all_before (l : list Section) :
  forall w,
    current_start w <= current_end w ->
    Forall (fun c => 0 <= size c /\ address c + size c <= current_start w) l ->
    flush (sweep w l) = flush w.
Proof.
  induction l as [|c rest IH]; intros w Hle Hall; [reflexivity|].
  inversion Hall as [|? ? [Hsz Hbefore] Hrest]; subst.
  pose proof (sweep_step_obstacle_before w c Hsz Hle Hbefore) as Hstep.
  simpl sweep. destruct (sweep_step w c) as [[] w']; simpl in Hstep; subst w'.
  - now apply IH.
  - reflexivity.
Qed.

(** X10: when every text and data section ends at or before the BSS
    address, the layout of the example scenario, the BSS list is the
    nominal range itself, or empty when its size is 0. *)
Theorem carve_all_before (bssAddress bssSize : Z) (obstacles : list Section) :
  0 <= bssSize ->
  Forall (fun c => 0 <= size c /\ address c + size c <= bssAddress) obstacles ->
  carve bssAddress bssSize obstacles
  = if bssSize =? 0 then [] else [mkBss bssAddress bssSize].
Proof.
  intros Hsz Hall. rewrite <- (carve_no_obstacles bssAddress bssSize Hsz).
  unfold carve.
  rewrite sweep_all_before; [reflexivity | simpl; lia |].
  apply (Permutation_Forall (Permutation_sym (sort_by_perm address obstacles))).
  exact Hall.
Qed.

Lemma carve_all_before_witness :
  carve 0x80003400 0x100
        [mkSection 0x300 0x80003300 0x100; mkSection 0x100 0x80003100 0x200]
  = if 0x100 =? 0 then [] else [mkBss 0x80003400 0x100].
Proof.
  apply (carve_all_before 0x80003400 0x100
           [mkSection 0x300 0x80003300 0x100; mkSection 0x100 0x80003100 0x200]).
  - lia.
  - repeat constructor; simpl; lia.
Defined.

(** X11: when no obstacle starts beyond the end of the nominal range, the
    fragments are exactly the uncovered part of it: a point lies in some
    fragment if and only if it lies in the nominal range and in no
    obstacle. *)
Theorem carve_exact (bssAddress bssSize : Z) (obstacles : list Section) :
  0 <= bssSize ->
  Forall (fun o => 0 <= size o) obstacles ->
  Forall (fun o => address o <= bssAddress + bssSize) obstacles ->
  forall x,
    (exists g, In g (carve bssAddress bssSize obstacles) /\ in_fragment x g)
    <-> (bssAddress <= x < bssAddress + bssSize
         /\ forall o, In o obstacles -> ~ in_section x o).
Proof.
  intros Hsz Hobs Hstart x.
  destruct (carve_spec bssAddress bssSize obstacles Hsz Hobs)
    as (_ & Hcov & Hdis & Hin).
  specialize (Hin Hstart). rewrite List.Forall_forall in Hin.
  split.
  - intros (g & Hg & Hx). split.
    + destruct (Hin g Hg) as [Hlo Hhi]. unfold in_fragment in Hx. lia.
    + intros o Ho. now apply (Hdis g o x).
  - intros [Hx Hfree]. destruct (Hcov x Hx) as [(o & Ho & Hxo)|Hfrag].
    + now destruct (Hfree o Ho).
    + exact Hfrag.
Qed.

Lemma carve_exact_witness :
  (exists g, In g (carve 0 200 [mkSection 1 150 100; mkSection 2 10 90])
             /\ in_fragment 120 g)
  <-> (0 <= 120 < 0 + 200
       /\ forall o, In o [mkSection 1 150 100; mkSection 2 10 90] ->
                    ~ in_section 120 o).
Proof.
  apply (carve_exact 0 200 [mkSection 1 150 100; mkSection 2 10 90]).
  - lia.
  - repeat constructor; simpl; lia.
  - repeat constructor; simpl; lia.
Defined.

Lemma sweep_step_emitted (w : Sweep) (c : Section) :
  (length (emitted (snd (sweep_step w c))) <= S (length (emitted w)))%nat.
Proof.
  unfold sweep_step. cbv zeta.
  destruct (_ && _); [simpl; lia|].
  destruct (_ && _ && _);
    [destruct (_ >=? _); simpl; lia|].
  destruct (address c >? current_start w);
    destruct (_ >=? _); simpl; rewrite ?length_app; simpl; lia.
Qed.

Lemma sweep_length (l : list Section) :
  forall w,
    (length (flush (sweep w l)) <= length (emitted w) + length l + 1)%nat.
Proof.
  assert (Hflush : forall w, (length (flush w) <= S (length (emitted w)))%nat).
  { intros w. unfold flush. destruct (_ <? _); rewrite ?length_app; simpl; lia. }
  induction l as [|c rest IH]; intros w.
  - simpl. specialize (Hflush w). lia.
  - pose proof (sweep_step_emitted w c) as Hstep. simpl sweep.
    destruct (sweep_step w c) as [[] w']; simpl in Hstep.
    + specialize (IH w'). simpl. lia.
    + specialize (Hflush w'). simpl. lia.
Qed.

Lemma carve_length_bound (bssAddress bssSize : Z) (obstacles : list Section) :
  (length (carve bssAddress bssSize obstacles) <= length obstacles + 1)%nat.
Proof.
  unfold carve.
  pose proof (sweep_length (sort_by address obstacles)
                (mkSweep bssAddress (bssAddress + bssSize) [])) as H.
  rewrite sort_by_length in H. simpl in H. exact H.
Qed.

(** X12: the sweep emits at most one fragment per obstacle and the flush
    at most one more, so there are at most [len(obstacles) + 1] BSS
    fragments. *)
Theorem carve_length (bssAddress bssSize : Z) (obstacles : list Section) :
  (length (carve bssAddress bssSize obstacles) <= length obstacles + 1)%nat.
Proof.
  exact (carve_length_bound bssAddress bssSize obstacles).
Qed.

(** X13: a decoded header has at most 19 BSS sections. *)
Theorem parseHeader_bss_count (data : list byte) (h : Header) :
  parseHeader data = Some h -> (length (bssSections h) <= 19)%nat.
Proof.
  intros H.
  destruct (parseHeader_decoded_sections data h H) as (Ht & Hd & _).
  destruct (parseHeader_inv data h H) as (a & sz & _ & _ & _ & _ & _ & ->).
  destruct (negb (a =? 0)); [|simpl; lia].
  pose proof (carve_length_bound a sz (textSections h ++ dataSections h)) as Hc.
  rewrite length_app in Hc. lia.
Qed.

Lemma parseHeader_bss_count_witness :
  (length (bssSections (mkHeader [mkSection 0x100 0x80003100 0x200] []
                                 [mkBss 0x80003400 0x100] 0x80003100))
   <= 19)%nat.
Proof.
  apply (parseHeader_bss_count
           (image [mkSection 0x100 0x80003100 0x200] []
                  0x80003400 0x100 0x80003100)).
  vm_compute. reflexivity.
Defined.

(** The fragments added from a window [cs, ce): all start inside
    [cs, ce], and all but the last end inside it as well. *)
Lemma sweep_last_only (l : list Section) :
  forall cs ce em,
    cs <= ce ->
    StronglySorted (key_le address) l ->
    Forall (fun o => 0 <= size o) l ->
    exists G,
      flush (sweep (mkSweep cs ce em) l) = em ++ G
      /\ forall i g, G !! i = Some g ->
           cs <= bss_address g <= ce
           /\ ((S i < length G)%nat -> bss_address g + bss_size g <= ce).
Proof.
  induction l as [|c rest IH]; intros cs ce em Hle Hsorted Hsize.
  - unfold flush. simpl. destruct (Z.ltb_spec cs ce).
    + exists [mkBss cs (ce - cs)]. split; [reflexivity|].
      intros [|i] g Hg; [|discriminate Hg]. injection Hg as <-. simpl.
      split; lia.
    + exists []. rewrite app_nil_r. split; [reflexivity|].
      intros i g Hg. discriminate Hg.
  - inversion Hsorted as [|? ? Hsorted' Hc]; subst.
    inversion Hsize as [|? ? Hsz Hsize']; subst.
    simpl sweep.
    destruct (sweep_step_cases cs ce em c Hsz Hle)
      as [(H1 & H2 & ->)|[(H1 & H2 & ->)|[(H1 & H2 & ->)|[(H1 & H2 & ->)
         |[(H1 & H2 & ->)|(H1 & H2 & ->)]]]]].
    + exists []. unfold flush. simpl. rewrite Z.ltb_irrefl, app_nil_r.
      split; [reflexivity|]. intros i g Hg. discriminate Hg.
    + destruct (IH (address c + size c) ce em) as (G & HG & HGs);
        [lia | assumption | assumption |].
      exists G. split; [exact HG|].
      intros i g Hg. destruct (HGs i g Hg) as [Hs He]. split; [lia | exact He].
    + exists [mkBss cs (address c - cs)]. unfold flush. simpl.
      rewrite Z.ltb_irrefl. split; [reflexivity|].
      intros [|i] g Hg; [|discriminate Hg]. injection Hg as <-. simpl.
      split; lia.
    + destruct (IH (address c + size c) ce (em ++ [mkBss cs (address c - cs)]))
        as (G & HG & HGs); [lia | assumption | assumption |].
      exists (mkBss cs (address c - cs) :: G).
      split; [rewrite HG, <- app_assoc; reflexivity|].
      intros [|i] g Hg.
      * injection Hg as <-. simpl. split; lia.
      * simpl in Hg. destruct (HGs i g Hg) as [Hs He].
        split; [lia|]. simpl. intros Hi. apply He. lia.
    + destruct (IH cs ce em) as (G & HG & HGs);
        [lia | assumption | assumption |].
      exists G. split; [exact HG | exact HGs].
    + exists []. unfold flush. simpl. subst ce.
      rewrite Z.ltb_irrefl, app_nil_r.
      split; [reflexivity|]. intros i g Hg. discriminate Hg.
Qed.

(** X14: how far the sweep can leave the nominal range.  Every fragment
    starts inside [bssAddress, bssAddress + bssSize], and every fragment
    but the last one also ends inside it: only the last fragment can
    reach past the end of the nominal range. *)
Theorem carve_last_only (bssAddress bssSize : Z) (obstacles : list Section) :
  0 <= bssSize ->
  Forall (fun o => 0 <= size o) obstacles ->
  forall i g,
    carve bssAddress bssSize obstacles !! i = Some g ->
    bssAddress <= bss_address g <= bssAddress + bssSize
    /\ ((S i < length (carve bssAddress bssSize obstacles))%nat ->
        bss_address g + bss_size g <= bssAddress + bssSize).
Proof.
  intros Hsz Hobs. unfold carve.
  destruct (sweep_last_only (sort_by address obstacles)
              bssAddress (bssAddress + bssSize) [])
    as (G & -> & HG).
  - lia.
  - apply sort_by_sorted.
  - apply (Permutation_Forall (Permutation_sym (sort_by_perm address obstacles))).
    exact Hobs.
  - simpl. exact HG.
Qed.

Lemma carve_last_only_witness :
  0x80003400 <= bss_address (mkBss 0x80003400 0x100) <= 0x80003400 + 0x600
  /\ ((1 < length (carve 0x80003400 0x600
                     [mkSection 1 0x80003500 0x100;
                      mkSection 2 0x80004000 0x100]))%nat ->
      bss_address (mkBss 0x80003400 0x100) + bss_size (mkBss 0x80003400 0x100)
      <= 0x80003400 + 0x600).
Proof.
  apply (carve_last_only 0x80003400 0x600
           [mkSection 1 0x80003500 0x100; mkSection 2 0x80004000 0x100]
           ltac:(lia) ltac:(repeat constructor; simpl; lia) 0%nat).
  vm_compute. reflexivity.
Defined.

Lemma decoded_sizes (l : list Section) :
  Forall decoded_section l -> Forall (fun o => 0 <= size o) l.
Proof.
  apply List.Forall_impl. unfold decoded_section, u32. intros s. lia.
Qed.

(** X15: in every header [parseHeader] returns with a non-zero bss
    address, each address of the nominal range
    [bssAddress, bssAddress + bssSize) lies either in a text or data
    section and in no BSS section, or in no text or data section and in
    exactly one BSS section; and no BSS section shares an address with a
    text or data section.  Nothing is assumed about the buffer. *)
Theorem parseHeader_bss_partition (data : list byte) (h : Header)
    (bssAddress bssSize : Z) :
  parseHeader data = Some h ->
  bssAddress_field data = Some bssAddress ->
  bssSize_field data = Some bssSize ->
  bssAddress <> 0 ->
  (forall x, bssAddress <= x < bssAddress + bssSize ->
     ((exists o, In o (initializedSections h) /\ in_section x o)
      /\ holders x (bssSections h) = 0%nat)
     \/ ((forall o, In o (initializedSections h) -> ~ in_section x o)
         /\ holders x (bssSections h) = 1%nat))
  /\ (forall f o x,
        In f (bssSections h) -> In o (initializedSections h) ->
        in_fragment x f -> ~ in_section x o).
Proof.
  intros H Ha Hs Hne.
  destruct (parseHeader_inv data h H)
    as (a & sz & Ha' & Hs' & _ & Hsz & _ & Hbss).
  rewrite Ha in Ha'. injection Ha' as <-.
  rewrite Hs in Hs'. injection Hs' as <-.
  apply Z.eqb_neq in Hne. rewrite Hne in Hbss. simpl in Hbss.
  destruct (parseHeader_decoded_sections data h H) as (_ & _ & Wt & Wd & _).
  assert (Hobs : Forall (fun o => 0 <= size o) (initializedSections h)).
  { unfold initializedSections. apply List.Forall_app.
    split; now apply decoded_sizes. }
  assert (Hsz0 : 0 <= bssSize) by (unfold u32 in Hsz; lia).
  destruct (carve_spec bssAddress bssSize (initializedSections h) Hsz0 Hobs)
    as (Hasc & Hcov & Hdis & _).
  unfold initializedSections in Hasc, Hcov, Hdis at 1 2.
  rewrite <- Hbss in Hasc, Hcov, Hdis.
  split; [|exact Hdis].
  intros x Hx. destruct (Hcov x Hx) as [(o & Ho & Hxo)|(g & Hg & Hxg)].
  - left. split; [now exists o|].
    apply holders_none. intros g Hg Hxg. now apply (Hdis g o x).
  - right. split.
    + intros o Ho. now apply (Hdis g o x).
    + now apply (holders_one (bssSections h) bssAddress x g).
Qed.

(** ** More on is_valid_for_data *)

Lemma validateHeader_grow (header : Header) (filesize filesize' : Z) :
  filesize <= filesize' ->
  validateHeader header filesize = true ->
  validateHeader header filesize' = true.
Proof.
  intros Hle H. destruct (Z.eq_dec filesize filesize') as [<-|Hne];
    [exact H|].
  revert H. unfold validateHeader. cbv zeta.
  destruct (length (textSections header) <? 1)%nat; [trivial|].
  destruct (existsb (outside_file filesize) _) eqn:E; [discriminate|].
  rewrite (outside_file_mono filesize filesize' _ ltac:(lia) E). trivial.
Qed.

(** What the answer [True] of [is_valid_for_data] rests on. *)
Lemma is_valid_for_data_true_inv (data : list byte) :
  is_valid_for_data data = Some true ->
  (0xe4 <= length data)%nat
  /\ exists header,
       parseHeader data = Some header
       /\ validateHeader header (Z.of_nat (length data)) = true.
Proof.
  unfold is_valid_for_data. cbv zeta.
  destruct (length (firstn 0xe4 data) <? 0xe4)%nat eqn:E; [discriminate|].
  apply Nat.ltb_ge in E. rewrite length_firstn in E.
  rewrite parseHeader_firstn.
  destruct (parseHeader data) as [h|]; [|discriminate].
  simpl. intros [= Hv]. split; [lia|]. now exists h.
Qed.

(** X16: [is_valid_for_data] never raises: the length guard keeps
    [parseHeader] away from every buffer on which [struct.unpack] would
    fail, so each view gets the answer [True] or [False]. *)
Theorem is_valid_for_data_never_raises (data : list byte) :
  is_valid_for_data data = Some true \/ is_valid_for_data data = Some false.
Proof.
  destruct (is_valid_for_data_total data) as [[] ->]; [now left | now right].
Qed.

(** X17: an accepted view has at least 0xE4 bytes, and stays accepted
    when bytes are appended to it. *)
Theorem is_valid_for_data_append (data extra : list byte) :
  is_valid_for_data data = Some true ->
  (0xe4 <= length data)%nat
  /\ is_valid_for_data (data ++ extra) = Some true.
Proof.
  intros H. destruct (is_valid_for_data_true_inv data H) as (Hlen & h & Hp & Hv).
  split; [exact Hlen|].
  unfold is_valid_for_data. cbv zeta.
  assert (E : firstn 0xe4 (data ++ extra) = firstn 0xe4 data).
  { rewrite firstn_app.
    replace (0xe4 - length data)%nat with 0%nat by lia.
    simpl. apply app_nil_r. }
  rewrite E, parseHeader_firstn, Hp.
  assert (E' : (length (firstn 0xe4 data) <? 0xe4)%nat = false)
    by (apply Nat.ltb_ge; rewrite length_firstn; lia).
  rewrite E'. simpl. f_equal.
  apply (validateHeader_grow h (Z.of_nat (length data))); [|exact Hv].
  rewrite length_app. lia.
Qed.

Lemma is_valid_for_data_append_witness :
  let data := image [mkSection 0x100 0x80003100 0x200] []
                    0x80003400 0x100 0x80003100 ++ repeat x00 0x21c in
  (0xe4 <= length data)%nat
  /\ is_valid_for_data (data ++ [xff; xfe]) = Some true.
Proof.
  cbv zeta.
  apply (is_valid_for_data_append
           (image [mkSection 0x100 0x80003100 0x200] []
                  0x80003400 0x100 0x80003100 ++ repeat x00 0x21c)
           [xff; xfe]).
  vm_compute. reflexivity.
Defined.

(** ** DOLView.init *)

(** X18: [init] has no length guard of its own: it raises exactly when
    the raw view is shorter than 0xE4 bytes; otherwise it returns
    [True]. *)
Theorem init_raises_iff_short (self : DOLView) :
  (init self = None <-> (length (raw self) < 0xe4)%nat)
  /\ (forall r, init self = Some r -> fst r = true).
Proof.
  unfold init. rewrite parseHeader_firstn. split.
  - destruct (parseHeader (raw self)) as [h|] eqn:E; simpl.
    + split; [discriminate|]. intros Hshort. exfalso.
      destruct (parseHeader_inv _ h E) as (a & sz & _ & _ & _ & _ & He & _).
      apply unpack_L0_length in He. unfold slice in He.
      rewrite length_firstn, length_skipn in He. lia.
    + split; [|reflexivity]. intros _.
      destruct (Nat.lt_ge_cases (length (raw self)) 0xe4) as [|Hge];
        [assumption|].
      destruct (parseHeader_succeeds _ Hge) as [h Hh]. congruence.
  - destruct (parseHeader (raw self)); simpl; [|discriminate].
    intros r [= <-]. reflexivity.
Qed.

Lemma segment_extents_app (c1 c2 : list HostCall) :
  segment_extents (c1 ++ c2) = segment_extents c1 ++ segment_extents c2.
Proof.
  induction c1 as [|[] c1 IH]; simpl; rewrite ?IH; reflexivity.
Qed.

Lemma segment_extents_text (l : list Section) :
  forall i, segment_extents (for_each_index register_text i l)
            = map (fun s => (address s, size s)) l.
Proof.
  induction l as [|s l IH]; intros i; [reflexivity|].
  simpl. now rewrite IH.
Qed.

Lemma segment_extents_data (l : list Section) :
  forall i, segment_extents (for_each_index register_data i l)
            = map (fun s => (address s, size s)) l.
Proof.
  induction l as [|s l IH]; intros i; [reflexivity|].
  simpl. now rewrite IH.
Qed.

Lemma segment_extents_bss (l : list BssSection) :
  forall i, segment_extents (for_each_index register_bss i l)
            = map (fun s => (bss_address s, bss_size s)) l.
Proof.
  induction l as [|s l IH]; intros i; [reflexivity|].
  simpl. now rewrite IH.
Qed.

(** The segments [init] registers are the sections of the header, in the
    order of [allSections]. *)
Lemma segment_extents_init (header : Header) :
  segment_extents (init_calls header)
  = map (fun s => (any_address s, any_size s)) (allSections header).
Proof.
  unfold init_calls, allSections, initializedSections.
  rewrite !segment_extents_app, segment_extents_text, segment_extents_data,
    segment_extents_bss.
  simpl. rewrite app_nil_r, !map_app, !map_map, <- app_assoc. reflexivity.
Qed.

Lemma In_for_each_index {A : Type} (body : nat -> A -> list HostCall)
    (l : list A) (c : HostCall) :
  forall i,
    In c (for_each_index body i l) <->
    exists k s, l !! k = Some s /\ In c (body (i + k)%nat s).
Proof.
  induction l as [|s l IH]; intros i; simpl.
  - split; [intros [] | intros (k & s & Hk & _); discriminate Hk].
  - rewrite in_app_iff, IH. split.
    + intros [Hc|(k & s' & Hk & Hc)].
      * exists 0%nat, s. rewrite Nat.add_0_r. now split.
      * exists (S k), s'. split; [exact Hk|].
        now replace (i + S k)%nat with (S i + k)%nat by lia.
    + intros ([|k] & s' & Hk & Hc).
      * injection Hk as <-. left. now rewrite Nat.add_0_r in Hc.
      * right. exists k, s'. split; [exact Hk|].
        now replace (S i + k)%nat with (i + S k)%nat by lia.
Qed.

(** Where a segment registered by [init] comes from. *)
Lemma In_segment_init (header : Header) (start len off dlen : Z)
    (flags : list SegmentFlag) :
  In (add_auto_segment start len off dlen flags) (init_calls header) <->
  (exists s, In s (textSections header)
     /\ (start, len, off, dlen) = (address s, size s, offset s, size s)
     /\ flags = [SegmentReadable; SegmentExecutable])
  \/ (exists s, In s (dataSections header)
     /\ (start, len, off, dlen) = (address s, size s, offset s, size s)
     /\ flags = [SegmentReadable; SegmentWritable])
  \/ (exists b, In b (bssSections header)
     /\ (start, len, off, dlen) = (bss_address b, bss_size b, 0, 0)
     /\ flags = [SegmentReadable; SegmentWritable]).
Proof.
  unfold init_calls. rewrite !in_app_iff, !In_for_each_index. split.
  - intros [(k & s & Hk & Hc)|[(k & s & Hk & Hc)|[(k & s & Hk & Hc)|Hc]]].
    + left. exists s. split;
        [apply list_elem_of_In, list_elem_of_lookup; eauto|].
      destruct Hc as [[= -> -> -> -> ->]|[[=]|[]]]. now split.
    + right. left. exists s. split;
        [apply list_elem_of_In, list_elem_of_lookup; eauto|].
      destruct Hc as [[= -> -> -> -> ->]|[[=]|[]]]. now split.
    + right. right. exists s. split;
        [apply list_elem_of_In, list_elem_of_lookup; eauto|].
      destruct Hc as [[= -> -> -> -> ->]|[[=]|[]]]. now split.
    + destruct Hc as [[=]|[[=]|[[=]|[]]]].
  - intros [(s & Hs & [= -> -> -> ->] & ->)|[(s & Hs & [= -> -> -> ->] & ->)
           |(s & Hs & [= -> -> -> ->] & ->)]];
      apply list_elem_of_In, list_elem_of_lookup in Hs; destruct Hs as [k Hk].
    + left. exists k, s. split; [exact Hk | now left].
    + right. left. exists k, s. split; [exact Hk | now left].
    + right. right. left. exists k, s. split; [exact Hk | now left].
Qed.

(** After [is_valid_for_data] accepted the raw view, [init] decodes the
    header the validator accepted. *)
Lemma init_after_valid (self : DOLView) :
  is_valid_for_data (raw self) = Some true ->
  exists header self',
    parseHeader (raw self) = Some header
    /\ validateHeader header (Z.of_nat (length (raw self))) = true
    /\ init self = Some (true, self')
    /\ host_calls self' = host_calls self ++ init_calls header
    /\ view_entrypoint self' = Some (entrypoint header).
Proof.
  intros H. destruct (is_valid_for_data_true_inv _ H) as (_ & h & Hp & Hv).
  exists h. eexists. split; [exact Hp|]. split; [exact Hv|].
  unfold init. rewrite parseHeader_firstn, Hp. simpl.
  split; [reflexivity|]. split; reflexivity.
Qed.

(** X19: after [is_valid_for_data] accepted the raw view, [init] returns
    [True], and every segment it registers has both ends of its address
    range in [0x80000000, 0x81800000] and its file range
    [data_offset, data_offset + data_length) inside the raw view. *)
Theorem init_segments_in_bounds (self : DOLView) :
  is_valid_for_data (raw self) = Some true ->
  exists header self',
    init self = Some (true, self')
    /\ host_calls self' = host_calls self ++ init_calls header
    /\ forall start len off dlen flags,
         In (add_auto_segment start len off dlen flags) (init_calls header) ->
         0x80000000 <= start < 0x81800000
         /\ 0x80000000 <= start + len <= 0x81800000
         /\ off + dlen <= Z.of_nat (length (raw self)).
Proof.
  intros H.
  destruct (init_after_valid self H) as (h & self' & _ & Hv & Hi & Hc & _).
  exists h, self'. split; [exact Hi|]. split; [exact Hc|].
  destruct (validateHeader_invariants h _ Hv) as (_ & Hfile & Hmem & _).
  intros start len off dlen flags Hin. apply In_segment_init in Hin.
  assert (Hinit : forall s, In s (initializedSections h) ->
            (0x80000000 <= address s < 0x81800000
             /\ 0x80000000 <= address s + size s <= 0x81800000)
            /\ offset s + size s <= Z.of_nat (length (raw self))).
  { intros s Hs. split; [|now apply Hfile].
    apply (Hmem (Initialized s)). unfold allSections.
    apply in_app_iff. left. now apply in_map. }
  destruct Hin as [(s & Hs & [= -> -> -> ->] & _)
                  |[(s & Hs & [= -> -> -> ->] & _)
                   |(b & Hb & [= -> -> -> ->] & _)]].
  - destruct (Hinit s) as [[H1 H2] H3]; [|tauto].
    unfold initializedSections. apply in_app_iff. now left.
  - destruct (Hinit s) as [[H1 H2] H3]; [|tauto].
    unfold initializedSections. apply in_app_iff. now right.
  - destruct (Hmem (Uninitialized b)) as [H1 H2].
    + unfold allSections. apply in_app_iff. right. now apply in_map.
    + simpl in H1, H2. split; [exact H1|]. split; [exact H2|]. lia.
Qed.

(** X20: after [is_valid_for_data] accepted the raw view, no address
    belongs to two of the segments [init] registers. *)
Theorem init_segments_disjoint (self : DOLView) :
  is_valid_for_data (raw self) = Some true ->
  exists header self',
    init self = Some (true, self')
    /\ host_calls self' = host_calls self ++ init_calls header
    /\ forall i j e1 e2 x,
         i <> j ->
         segment_extents (init_calls header) !! i = Some e1 ->
         segment_extents (init_calls header) !! j = Some e2 ->
         fst e1 <= x < fst e1 + snd e1 ->
         ~ (fst e2 <= x < fst e2 + snd e2).
Proof.
  intros H.
  destruct (init_after_valid self H) as (h & self' & _ & Hv & Hi & Hc & _).
  exists h, self'. split; [exact Hi|]. split; [exact Hc|].
  destruct (validateHeader_true_inv h _ Hv) as (_ & _ & _ & _ & Haddr & _).
  intros i j e1 e2 x Hij H1 H2.
  rewrite segment_extents_init, list_lookup_fmap in H1, H2.
  destruct (allSections h !! i) as [a|] eqn:Ea; [|discriminate H1].
  destruct (allSections h !! j) as [b|] eqn:Eb; [|discriminate H2].
  injection H1 as <-. injection H2 as <-. simpl.
  exact (adjacent_overlap_disjoint any_address any_size _ Haddr
           i j a b x Hij Ea Eb).
Qed.

(** X21: after [is_valid_for_data] accepted the raw view, the address
    [init] passes to [add_function] and [add_entry_point], which is the
    one [perform_get_entry_point] returns afterwards, lies in a segment
    registered with the executable flag. *)
Theorem init_entry_point_executable (self : DOLView) :
  is_valid_for_data (raw self) = Some true ->
  exists entry self',
    init self = Some (true, self')
    /\ perform_get_entry_point self' = Some entry
    /\ In (add_function entry) (host_calls self')
    /\ In (add_entry_point entry) (host_calls self')
    /\ exists start len off dlen flags,
         In (add_auto_segment start len off dlen flags) (host_calls self')
         /\ In SegmentExecutable flags
         /\ start <= entry < start + len.
Proof.
  intros H.
  destruct (init_after_valid self H) as (h & self' & _ & Hv & Hi & Hc & He).
  exists (entrypoint h), self'. split; [exact Hi|]. split; [exact He|].
  rewrite Hc.
  assert (Hlast : forall c,
            In c [define_auto_symbol_function (entrypoint h) "_start";
                  add_function (entrypoint h);
                  add_entry_point (entrypoint h)] ->
            In c (host_calls self ++ init_calls h)).
  { intros c Hin. apply in_app_iff. right. unfold init_calls.
    rewrite !in_app_iff. tauto. }
  split; [apply Hlast; simpl; tauto|]. split; [apply Hlast; simpl; tauto|].
  destruct (validateHeader_invariants h _ Hv) as (_ & _ & _ & s & Hs & Hep).
  exists (address s), (size s), (offset s), (size s),
    [SegmentReadable; SegmentExecutable].
  split; [|split; [simpl; tauto | exact Hep]].
  apply in_app_iff. right. apply In_segment_init. left.
  exists s. repeat split. exact Hs.
Qed.

Lemma section_names_app (c1 c2 : list HostCall) :
  section_names (c1 ++ c2) = section_names c1 ++ section_names c2.
Proof.
  induction c1 as [|[] c1 IH]; simpl; rewrite ?IH; reflexivity.
Qed.

Lemma section_names_text (l : list Section) :
  forall i, section_names (for_each_index register_text i l)
            = map (fun k => ".text" +:+ pretty k) (seq i (length l)).
Proof.
  induction l as [|s l IH]; intros i; [reflexivity|].
  simpl. now rewrite IH.
Qed.

Lemma section_names_data (l : list Section) :
  forall i, section_names (for_each_index register_data i l)
            = map (fun k => ".data" +:+ pretty k) (seq i (length l)).
Proof.
  induction l as [|s l IH]; intros i; [reflexivity|].
  simpl. now rewrite IH.
Qed.

Lemma section_names_bss (l : list BssSection) :
  forall i, section_names (for_each_index register_bss i l)
            = map (fun k => ".bss" +:+ pretty k) (seq i (length l)).
Proof.
  induction l as [|s l IH]; intros i; [reflexivity|].
  simpl. now rewrite IH.
Qed.

Lemma NoDup_numbered (prefix : string) (i n : nat) :
  NoDup (map (fun k : nat => prefix +:+ pretty k) (seq i n)).
Proof.
  assert (Hinj : Inj (=) (=) (fun k : nat => prefix +:+ pretty k)).
  { intros k1 k2 E. apply (inj (String.append prefix)) in E.
    now apply (inj pretty) in E. }
  apply (NoDup_fmap_2 (fun k : nat => prefix +:+ pretty k)), NoDup_seq.
Qed.

(** X22: the sections [init] registers have pairwise distinct names:
    [.text0], [.text1], ..., [.data0], ..., [.bss0], ... with the index
    printed in decimal. *)
Theorem init_section_names_distinct (header : Header) :
  section_names (init_calls header)
  = map (fun k => ".text" +:+ pretty k) (seq 0 (length (textSections header)))
    ++ map (fun k => ".data" +:+ pretty k)
           (seq 0 (length (dataSections header)))
    ++ map (fun k => ".bss" +:+ pretty k)
           (seq 0 (length (bssSections header)))
  /\ NoDup (section_names (init_calls header)).
Proof.
  assert (E : section_names (init_calls header)
    = map (fun k => ".text" +:+ pretty k) (seq 0 (length (textSections header)))
      ++ map (fun k => ".data" +:+ pretty k)
             (seq 0 (length (dataSections header)))
      ++ map (fun k => ".bss" +:+ pretty k)
             (seq 0 (length (bssSections header)))).
  { unfold init_calls.
    rewrite !section_names_app, section_names_text, section_names_data,
      section_names_bss.
    simpl. now rewrite app_nil_r. }
  split; [exact E|]. rewrite E.
  apply NoDup_app. split; [apply NoDup_numbered|]. split.
  - intros name Ht Hrest.
    apply list_elem_of_In, in_map_iff in Ht. destruct Ht as (k & <- & _).
    apply list_elem_of_In, in_app_iff in Hrest.
    destruct Hrest as [Hd|Hb]; apply in_map_iff in Hd || apply in_map_iff in Hb.
    + destruct Hd as (k' & Hk' & _). simpl in Hk'. discriminate Hk'.
    + destruct Hb as (k' & Hk' & _). simpl in Hk'. discriminate Hk'.
  - apply NoDup_app. split; [apply NoDup_numbered|].
    split; [|apply NoDup_numbered].
    intros name Hd Hb.
    apply list_elem_of_In, in_map_iff in Hd. destruct Hd as (k & <- & _).
    apply list_elem_of_In, in_map_iff in Hb.
    destruct Hb as (k' & Hk' & _). simpl in Hk'. discriminate Hk'.
Qed.

(** ** Decoding a laid out image *)

Lemma byte_val_of (v : Z) : byte_val (byte_of v) = v mod 256.
Proof.
  unfold byte_val, byte_of.
  pose proof (Z.mod_pos_bound v 256 ltac:(lia)) as Hb.
  destruct (Byte.of_N (Z.to_N (v mod 256))) as [b|] eqn:E.
  - apply Byte.to_of_N in E. rewrite E. lia.
  - apply Byte.of_N_None_iff in E. lia.
Qed.

Lemma be32_pack_L (v : Z) :
  u32 v ->
  be32 (byte_of (v / 16777216)) (byte_of (v / 65536)) (byte_of (v / 256))
       (byte_of v) = v.
Proof.
  unfold u32, be32. intros Hv. rewrite !byte_val_of.
  Z.to_euclidean_division_equations. lia.
Qed.

Lemma unpack_L_pack (vs : list Z) :
  Forall u32 vs ->
  forall n, n = length vs ->
    unpack_L n (concat (map pack_L vs)) = Some vs.
Proof.
  induction 1 as [|v vs Hv _ IH]; intros n ->; [reflexivity|].
  simpl. rewrite (IH _ eq_refl), be32_pack_L by exact Hv. reflexivity.
Qed.

Lemma padded_length (n : nat) (vs : list Z) :
  length (firstn n (vs ++ repeat 0 n)) = n.
Proof.
  rewrite length_firstn, length_app, repeat_length. lia.
Qed.

Lemma padded_u32 (n : nat) (vs : list Z) :
  Forall u32 vs -> Forall u32 (firstn n (vs ++ repeat 0 n)).
Proof.
  intros H. apply Forall_take, List.Forall_app. split; [exact H|].
  apply List.Forall_forall. intros x Hx. apply repeat_spec in Hx.
  subst x. unfold u32. lia.
Qed.

Lemma table_length (n : nat) (vs : list Z) :
  length (table n vs) = (4 * n)%nat.
Proof.
  unfold table. generalize (padded_length n vs).
  generalize (firstn n (vs ++ repeat 0 n)). intros l <-.
  induction l as [|v l IH]; [reflexivity|].
  simpl. rewrite IH. lia.
Qed.

Lemma unpack_L_table (n : nat) (vs : list Z) :
  Forall u32 vs ->
  unpack_L n (table n vs) = Some (firstn n (vs ++ repeat 0 n)).
Proof.
  intros H. unfold table.
  apply (unpack_L_pack _ (padded_u32 n vs H)).
  now rewrite padded_length.
Qed.

Lemma unpack_L0_pack (v : Z) : u32 v -> unpack_L0 (pack_L v) = Some v.
Proof.
  intros Hv. unfold unpack_L0, pack_L. simpl.
  now rewrite be32_pack_L by exact Hv.
Qed.

(** A slice that lies in the first, or behind the first, of two parts. *)
Lemma slice_app_l (a b : list byte) (hi : nat) :
  hi = length a -> slice (a ++ b) 0 hi = a.
Proof.
  intros ->. unfold slice. rewrite Nat.sub_0_r.
  change (skipn 0 (a ++ b)) with (a ++ b).
  rewrite firstn_app, Nat.sub_diag, firstn_all. simpl. apply app_nil_r.
Qed.

Lemma slice_app_r (a b : list byte) (lo hi : nat) :
  (length a <= lo)%nat ->
  slice (a ++ b) lo hi = slice b (lo - length a) (hi - length a).
Proof.
  intros Hlo. unfold slice.
  rewrite skipn_app, (skipn_all2 a) by exact Hlo. simpl.
  f_equal. lia.
Qed.

(** The slots of a padded table decode to the sections written in it. *)
Lemma present_prefix_padded (l : list Section) :
  Forall (fun s => offset s <> 0) l ->
  forall n m,
    (length l <= n)%nat -> (n <= length l + m)%nat ->
    present_prefix
      (zip_sections (firstn n (map offset l ++ repeat 0 m))
                    (firstn n (map address l ++ repeat 0 m))
                    (firstn n (map size l ++ repeat 0 m))) = l.
Proof.
  induction 1 as [|s l Hs _ IH]; intros n m Hlen Hpad.
  - simpl. destruct n as [|n]; [reflexivity|].
    destruct m as [|m]; [simpl in Hpad; lia|]. reflexivity.
  - destruct n as [|n]; [simpl in Hlen; lia|]. simpl.
    apply Z.eqb_neq in Hs. rewrite Hs.
    f_equal; [now destruct s | apply IH; simpl in *; lia].
Qed.

Lemma parseSections_padded (n : nat) (l : list Section) :
  (length l <= n)%nat ->
  Forall (fun s => offset s <> 0) l ->
  parseSections (firstn n (map offset l ++ repeat 0 n))
                (firstn n (map address l ++ repeat 0 n))
                (firstn n (map size l ++ repeat 0 n)) = Some l.
Proof.
  intros Hlen Hnz.
  rewrite parseSections_present_prefix by now rewrite !padded_length.
  f_equal. apply present_prefix_padded; [exact Hnz | exact Hlen | lia].
Qed.

Lemma decoded_fields (l : list Section) :
  Forall decoded_section l ->
  Forall (fun s => offset s <> 0) l
  /\ Forall u32 (map offset l) /\ Forall u32 (map address l)
  /\ Forall u32 (map size l).
Proof.
  induction 1 as [|s l (H0 & H1 & H2 & H3) _ (IH0 & IH1 & IH2 & IH3)]; simpl.
  - repeat split; constructor.
  - repeat split; constructor; assumption.
Qed.

Ltac skip_part :=
  rewrite slice_app_r by (rewrite ?table_length; simpl; lia);
  rewrite ?table_length.

Ltac this_part :=
  match goal with
  | |- slice _ ?lo ?hi = _ =>
      let lo' := eval vm_compute in lo in
      let hi' := eval vm_compute in hi in
      change lo with lo'; change hi with hi'
  end;
  apply slice_app_l; rewrite ?table_length; reflexivity.

(** X23: the header layout.  Writing at most 7 text and 11 data sections
    (non-zero offsets, fields in [0, 2^32)) into zero-padded big-endian
    tables at 0x00, 0x1C, 0x48, 0x64, 0x90 and 0xAC, and the bss address,
    bss size and entry point at 0xD8, 0xDC and 0xE0, gives an image that
    [parseHeader] decodes back to these sections and this entry point,
    with the BSS list carved from the two bss fields, whatever bytes
    follow the header. *)
Theorem parseHeader_image (text data : list Section)
    (bssAddress bssSize entry : Z) (rest : list byte) :
  (length text <= 7)%nat ->
  (length data <= 11)%nat ->
  Forall decoded_section text ->
  Forall decoded_section data ->
  u32 bssAddress -> u32 bssSize -> u32 entry ->
  parseHeader (image text data bssAddress bssSize entry ++ rest)
  = Some (mkHeader text data
            (if negb (bssAddress =? 0)
             then carve bssAddress bssSize (text ++ data)
             else [])
            entry).
Proof.
  intros Lt Ld Wt Wd Ua Us Ue.
  destruct (decoded_fields text Wt) as (Nt & Uto & Uta & Uts).
  destruct (decoded_fields data Wd) as (Nd & Udo & Uda & Uds).
  set (X := image text data bssAddress bssSize entry ++ rest).
  assert (S1 : slice X 0x00 0x1c = table 7 (map offset text)).
  { subst X. unfold image. rewrite <- !app_assoc. this_part. }
  assert (S2 : slice X 0x1c 0x48 = table 11 (map offset data)).
  { subst X. unfold image. rewrite <- !app_assoc.
    do 1 skip_part. this_part. }
  assert (S3 : slice X 0x48 0x64 = table 7 (map address text)).
  { subst X. unfold image. rewrite <- !app_assoc.
    do 2 skip_part. this_part. }
  assert (S4 : slice X 0x64 0x90 = table 11 (map address data)).
  { subst X. unfold image. rewrite <- !app_assoc.
    do 3 skip_part. this_part. }
  assert (S5 : slice X 0x90 0xac = table 7 (map size text)).
  { subst X. unfold image. rewrite <- !app_assoc.
    do 4 skip_part. this_part. }
  assert (S6 : slice X 0xac 0xd8 = table 11 (map size data)).
  { subst X. unfold image. rewrite <- !app_assoc.
    do 5 skip_part. this_part. }
  assert (S7 : slice X 0xd8 0xdc = pack_L bssAddress).
  { subst X. unfold image. rewrite <- !app_assoc.
    do 6 skip_part. this_part. }
  assert (S8 : slice X 0xdc 0xe0 = pack_L bssSize).
  { subst X. unfold image. rewrite <- !app_assoc.
    do 7 skip_part. this_part. }
  assert (S9 : slice X 0xe0 0xe4 = pack_L entry).
  { subst X. unfold image. rewrite <- !app_assoc.
    do 8 skip_part. this_part. }
  unfold parseHeader. rewrite S1, S2, S3, S4, S5, S6, S7, S8, S9.
  rewrite !unpack_L_table by assumption.
  rewrite !unpack_L0_pack by assumption.
  cbn [mbind option_bind].
  rewrite (parseSections_padded 7 text Lt Nt),
    (parseSections_padded 11 data Ld Nd).
  reflexivity.
Qed.

Lemma parseHeader_image_witness :
  parseHeader (image [mkSection 0x100 0x80003100 0x200]
                     [mkSection 0x300 0x80003300 0x100]
                     0x80003400 0x100 0x80003100 ++ [xff; xfe])
  = Some (mkHeader [mkSection 0x100 0x80003100 0x200]
                   [mkSection 0x300 0x80003300 0x100]
            (if negb (0x80003400 =? 0)
             then carve 0x80003400 0x100
                    ([mkSection 0x100 0x80003100 0x200]
                     ++ [mkSection 0x300 0x80003300 0x100])
             else [])
            0x80003100).
Proof.
  apply (parseHeader_image [mkSection 0x100 0x80003100 0x200]
           [mkSection 0x300 0x80003300 0x100] 0x80003400 0x100 0x80003100
           [xff; xfe]).
  - simpl. lia.
  - simpl. lia.
  - repeat constructor; simpl; unfold u32; simpl; lia.
  - repeat constructor; simpl; unfold u32; simpl; lia.
  - unfold u32. lia.
  - unfold u32. lia.
  - unfold u32. lia.
Defined.

(** ** More on validateHeader over the store *)

Section StoreInversion.
Import Store.

Lemma bind_inv {A B : Type} (m : M A) (k : A -> M B)
    (σ σ' : gmap nat (list AnySection)) (b : B) :
  bind m k σ = Some (b, σ') ->
  exists a σ1, m σ = Some (a, σ1) /\ k a σ1 = Some (b, σ').
Proof.
  unfold bind. destruct (m σ) as [[a σ1]|]; [|discriminate].
  intros H. now exists a, σ1.
Qed.

Lemma deref_inv (l : nat) (v : list AnySection)
    (σ σ' : gmap nat (list AnySection)) :
  deref l σ = Some (v, σ') -> σ' = σ /\ σ !! l = Some v.
Proof.
  unfold deref. destruct (σ !! l) as [v'|]; [|discriminate].
  intros [= -> ->]. now split.
Qed.

Lemma lift_inv {A : Type} (o : option A) (a : A)
    (σ σ' : gmap nat (list AnySection)) :
  lift o σ = Some (a, σ') -> σ' = σ /\ o = Some a.
Proof.
  unfold lift. destruct o as [a'|]; [|discriminate].
  intros [= -> ->]. now split.
Qed.

Lemma new_list_inv (v : list AnySection) (l : nat)
    (σ σ' : gmap nat (list AnySection)) :
  new_list v σ = Some (l, σ') -> σ' = <[l := v]> σ /\ σ !! l = None.
Proof.
  unfold new_list. intros [= <- <-]. split; [reflexivity|].
  apply not_elem_of_dom, is_fresh.
Qed.

Lemma list_concat_inv (l1 l2 l : nat) (σ σ' : gmap nat (list AnySection)) :
  list_concat l1 l2 σ = Some (l, σ') ->
  exists v1 v2,
    σ !! l1 = Some v1 /\ σ !! l2 = Some v2
    /\ σ' = <[l := v1 ++ v2]> σ /\ σ !! l = None.
Proof.
  unfold list_concat. intros H.
  apply bind_inv in H. destruct H as (v1 & σ1 & H1 & H).
  apply deref_inv in H1. destruct H1 as [-> H1].
  apply bind_inv in H. destruct H as (v2 & σ2 & H2 & H).
  apply deref_inv in H2. destruct H2 as [-> H2].
  apply new_list_inv in H. destruct H as [-> Hl].
  now exists v1, v2.
Qed.

Lemma list_copy_inv (l0 l : nat) (σ σ' : gmap nat (list AnySection)) :
  list_copy l0 σ = Some (l, σ') ->
  exists v, σ !! l0 = Some v /\ σ' = <[l := v]> σ /\ σ !! l = None.
Proof.
  unfold list_copy. intros H.
  apply bind_inv in H. destruct H as (v & σ1 & H1 & H).
  apply deref_inv in H1. destruct H1 as [-> H1].
  apply new_list_inv in H. destruct H as [-> Hl].
  now exists v.
Qed.

Lemma list_sort_inv (key : AnySection -> option Z) (l : nat) (u : unit)
    (σ σ' : gmap nat (list AnySection)) :
  list_sort key l σ = Some (u, σ') -> exists v, σ' = <[l := v]> σ.
Proof.
  unfold list_sort. intros H.
  apply bind_inv in H. destruct H as (v & σ1 & H1 & H).
  apply deref_inv in H1. destruct H1 as [-> H1].
  apply bind_inv in H. destruct H as (ks & σ2 & H2 & H).
  apply lift_inv in H2. destruct H2 as [-> H2].
  injection H as <- <-. eauto.
Qed.

Lemma ret_inv {A : Type} (a b : A) (σ σ' : gmap nat (list AnySection)) :
  ret a σ = Some (b, σ') -> b = a /\ σ' = σ.
Proof. unfold ret. intros [= <- <-]. now split. Qed.

(** A copy allocated at a fresh location and sorted in place leaves the
    objects of [σ0] alone. *)
Lemma copy_sort_frame (key : AnySection -> option Z) (l0 l : nat) (u : unit)
    (σ0 σ σ1 σ2 : gmap nat (list AnySection)) :
  preserved σ0 σ ->
  list_copy l0 σ = Some (l, σ1) ->
  list_sort key l σ1 = Some (u, σ2) ->
  preserved σ0 σ2.
Proof.
  intros Hp Hcopy Hsort.
  apply list_copy_inv in Hcopy. destruct Hcopy as (v & _ & -> & Hl).
  apply list_sort_inv in Hsort. destruct Hsort as (v' & ->).
  pose proof (preserved_fresh σ0 σ l Hp Hl) as Hl0.
  apply preserved_insert; [|exact Hl0].
  apply preserved_insert; [exact Hp | exact Hl0].
Qed.

(** X24: whenever [validateHeader] returns, with either verdict and on
    any store, also one whose lists hold dicts of the wrong kind, every
    list object that existed before the call has the content it had:
    the call writes to the lists it allocated itself only. *)
Theorem validateHeader_store_frame (σ σ' : gmap nat (list AnySection))
    (r : HeaderRef) (filesize : Z) (verdict : bool) :
  validateHeader_store r filesize σ = Some (verdict, σ') ->
  preserved σ σ'.
Proof.
  unfold validateHeader_store. cbv zeta. intros H.
  apply bind_inv in H. destruct H as (l1 & σ1 & H1 & H).
  apply list_concat_inv in H1. destruct H1 as (v1 & v2 & _ & _ & -> & F1).
  assert (P1 : preserved σ (<[l1 := v1 ++ v2]> σ))
    by (apply preserved_insert; [apply preserved_refl | exact F1]).
  apply bind_inv in H. destruct H as (l2 & σ2 & H2 & H).
  apply list_concat_inv in H2. destruct H2 as (v3 & v4 & _ & _ & -> & F2).
  set (σ2 := <[l2 := v3 ++ v4]> (<[l1 := v1 ++ v2]> σ)) in *.
  assert (P2 : preserved σ σ2).
  { apply preserved_insert; [exact P1|]. now apply (preserved_fresh σ _ l2 P1). }
  clearbody σ2.
  apply bind_inv in H. destruct H as (text & σa & Ha & H).
  apply deref_inv in Ha. destruct Ha as [-> _].
  destruct (length text <? 1)%nat;
    [apply ret_inv in H; destruct H as [_ ->]; exact P2|].
  apply bind_inv in H. destruct H as (ini & σa & Ha & H).
  apply deref_inv in Ha. destruct Ha as [-> _].
  apply bind_inv in H. destruct H as (outside & σa & Ha & H).
  apply lift_inv in Ha. destruct Ha as [-> _].
  destruct outside; [apply ret_inv in H; destruct H as [_ ->]; exact P2|].
  apply bind_inv in H. destruct H as (all & σa & Ha & H).
  apply deref_inv in Ha. destruct Ha as [-> _].
  destruct (existsb outside_memory all);
    [apply ret_inv in H; destruct H as [_ ->]; exact P2|].
  apply bind_inv in H. destruct H as (l3 & σ3 & Hc3 & H).
  apply bind_inv in H. destruct H as (u3 & σ3' & Hs3 & H).
  pose proof (copy_sort_frame _ _ _ _ σ σ2 σ3 σ3' P2 Hc3 Hs3) as P3.
  apply bind_inv in H. destruct H as (byOffset & σa & Ha & H).
  apply deref_inv in Ha. destruct Ha as [-> _].
  apply bind_inv in H. destruct H as (overlap & σa & Ha & H).
  apply lift_inv in Ha. destruct Ha as [-> _].
  destruct overlap; [apply ret_inv in H; destruct H as [_ ->]; exact P3|].
  apply bind_inv in H. destruct H as (l4 & σ4 & Hc4 & H).
  apply bind_inv in H. destruct H as (u4 & σ4' & Hs4 & H).
  pose proof (copy_sort_frame _ _ _ _ σ σ3' σ4 σ4' P3 Hc4 Hs4) as P4.
  apply bind_inv in H. destruct H as (byAddress & σa & Ha & H).
  apply deref_inv in Ha. destruct Ha as [-> _].
  destruct (adjacent_overlap any_address any_size byAddress);
    [apply ret_inv in H; destruct H as [_ ->]; exact P4|].
  destruct (negb _); apply ret_inv in H; destruct H as [_ ->]; exact P4.
Qed.

End StoreInversion.

Section StoreMissingKey.
Import Store.

Lemma any_outside_file_missing (filesize : Z) (l : list AnySection)
    (s : AnySection) (b : bool) :
  In s l -> any_offset s = None ->
  any_outside_file filesize l = Some b -> b = true.
Proof.
  induction l as [|c l IH]; intros Hin Hnone H; [destruct Hin|].
  simpl in H. destruct (any_offset c) as [o|] eqn:E; [|discriminate H].
  destruct (o + any_size c >? filesize); [now injection H as <-|].
  destruct Hin as [<-|Hin]; [congruence|]. now apply IH.
Qed.

(** X25: a missing ["offset"] key.  When the text or data list holds a
    dict without that key, [validateHeader] never answers [True]: it
    raises [KeyError], or returns [False] because of a check that fails
    before the dict is reached. *)
Theorem validateHeader_store_missing_offset
    (σ σ' : gmap nat (list AnySection)) (r : HeaderRef) (filesize : Z)
    (text data : list AnySection) (s : AnySection) (verdict : bool) :
  σ !! textSections_ref r = Some text ->
  σ !! dataSections_ref r = Some data ->
  In s (text ++ data) ->
  any_offset s = None ->
  validateHeader_store r filesize σ = Some (verdict, σ') ->
  verdict = false.
Proof.
  intros Ht Hd Hin Hnone. unfold validateHeader_store. cbv zeta. intros H.
  apply bind_inv in H. destruct H as (l1 & σ1 & H1 & H).
  apply list_concat_inv in H1. destruct H1 as (v1 & v2 & Hv1 & Hv2 & -> & F1).
  rewrite Ht in Hv1. injection Hv1 as <-.
  rewrite Hd in Hv2. injection Hv2 as <-.
  apply bind_inv in H. destruct H as (l2 & σ2 & H2 & H).
  apply list_concat_inv in H2. destruct H2 as (v3 & v4 & Hv3 & _ & -> & F2).
  rewrite lookup_insert_eq in Hv3. injection Hv3 as <-.
  apply bind_inv in H. destruct H as (text' & σa & Ha & H).
  apply deref_inv in Ha. destruct Ha as [-> _].
  destruct (length text' <? 1)%nat;
    [apply ret_inv in H; now destruct H as [-> _]|].
  apply bind_inv in H. destruct H as (ini & σa & Ha & H).
  apply deref_inv in Ha. destruct Ha as [-> Hini].
  rewrite lookup_insert_ne in Hini
    by (intros ->; rewrite lookup_insert_eq in F2; discriminate F2).
  rewrite lookup_insert_eq in Hini. injection Hini as <-.
  apply bind_inv in H. destruct H as (outside & σa & Ha & H).
  apply lift_inv in Ha. destruct Ha as [-> Hout].
  rewrite (any_outside_file_missing filesize _ s outside Hin Hnone Hout) in H.
  apply ret_inv in H. now destruct H as [-> _].
Qed.

(** A text list whose first dict lies outside the file and whose second
    dict has no ["offset"] key: the verdict is [False]. *)
Lemma validateHeader_store_missing_offset_witness :
  match validateHeader_store (mkHeaderRef 0 1 2 0x80003100) 0x200
          (<[0%nat := [Initialized (mkSection 0x100 0x80003100 0x200);
                       Uninitialized (mkBss 0x80003400 0x100)]]>
             (<[1%nat := []]>
                (<[2%nat := []]> (∅ : gmap nat (list AnySection)))))
  with
  | Some (verdict, σ') => verdict = false
  | None => False
  end.
Proof.
  destruct (validateHeader_store (mkHeaderRef 0 1 2 0x80003100) 0x200
              (<[0%nat := [Initialized (mkSection 0x100 0x80003100 0x200);
                           Uninitialized (mkBss 0x80003400 0x100)]]>
                 (<[1%nat := []]>
                    (<[2%nat := []]> (∅ : gmap nat (list AnySection))))))
    as [[verdict σ']|] eqn:E.
  - apply (validateHeader_store_missing_offset
             (<[0%nat := [Initialized (mkSection 0x100 0x80003100 0x200);
                          Uninitialized (mkBss 0x80003400 0x100)]]>
                (<[1%nat := []]>
                   (<[2%nat := []]> (∅ : gmap nat (list AnySection)))))
             σ' (mkHeaderRef 0 1 2 0x80003100) 0x200
             [Initialized (mkSection 0x100 0x80003100 0x200);
              Uninitialized (mkBss 0x80003400 0x100)] []
             (Uninitialized (mkBss 0x80003400 0x100)) verdict);
      [reflexivity | reflexivity | simpl; tauto | reflexivity | exact E].
  - vm_compute in E. discriminate E.
Defined.

(** The same call: the three lists of the store are as they were. *)
Lemma validateHeader_store_frame_witness :
  match validateHeader_store (mkHeaderRef 0 1 2 0x80003100) 0x200
          (<[0%nat := [Initialized (mkSection 0x100 0x80003100 0x200);
                       Uninitialized (mkBss 0x80003400 0x100)]]>
             (<[1%nat := []]>
                (<[2%nat := []]> (∅ : gmap nat (list AnySection)))))
  with
  | Some (verdict, σ') =>
      preserved
        (<[0%nat := [Initialized (mkSection 0x100 0x80003100 0x200);
                     Uninitialized (mkBss 0x80003400 0x100)]]>
           (<[1%nat := []]>
              (<[2%nat := []]> (∅ : gmap nat (list AnySection)))))
        σ'
  | None => False
  end.
Proof.
  destruct (validateHeader_store (mkHeaderRef 0 1 2 0x80003100) 0x200
              (<[0%nat := [Initialized (mkSection 0x100 0x80003100 0x200);
                           Uninitialized (mkBss 0x80003400 0x100)]]>
                 (<[1%nat := []]>
                    (<[2%nat := []]> (∅ : gmap nat (list AnySection))))))
    as [[verdict σ']|] eqn:E.
  - exact (validateHeader_store_frame _ σ' _ _ verdict E).
  - vm_compute in E. discriminate E.
Defined.

End StoreMissingKey.

(** ** The example file *)

Lemma validateHeader_address_disjoint_witness :
  ~ in_any 0x80003300 (Initialized example_text).
Proof.
  apply (validateHeader_address_disjoint example_header 0x400
           ltac:(vm_compute; reflexivity) 1%nat 0%nat
           (Initialized example_data) (Initialized example_text) 0x80003300);
    [lia | reflexivity | reflexivity | unfold in_any; simpl; lia].
Defined.

Lemma validateHeader_file_disjoint_witness :
  ~ in_file 0x300 example_text.
Proof.
  apply (validateHeader_file_disjoint example_header 0x400
           ltac:(vm_compute; reflexivity) 1%nat 0%nat
           example_data example_text 0x300);
    [lia | reflexivity | reflexivity | unfold in_file; simpl; lia].
Defined.

Lemma parseHeader_bss_partition_witness :
  (forall x, 0x80003400 <= x < 0x80003400 + 0x100 ->
     ((exists o, In o (initializedSections example_header) /\ in_section x o)
      /\ holders x (bssSections example_header) = 0%nat)
     \/ ((forall o, In o (initializedSections example_header) ->
            ~ in_section x o)
         /\ holders x (bssSections example_header) = 1%nat))
  /\ (forall f o x,
        In f (bssSections example_header) ->
        In o (initializedSections example_header) ->
        in_fragment x f -> ~ in_section x o).
Proof.
  apply (parseHeader_bss_partition example_file example_header
           0x80003400 0x100).
  - vm_compute. reflexivity.
  - vm_compute. reflexivity.
  - vm_compute. reflexivity.
  - lia.
Defined.

Lemma init_segments_in_bounds_witness :
  exists header self',
    init (new_view example_file) = Some (true, self')
    /\ host_calls self'
       = host_calls (new_view example_file) ++ init_calls header
    /\ forall start len off dlen flags,
         In (add_auto_segment start len off dlen flags) (init_calls header) ->
         0x80000000 <= start < 0x81800000
         /\ 0x80000000 <= start + len <= 0x81800000
         /\ off + dlen <= Z.of_nat (length (raw (new_view example_file))).
Proof.
  apply (init_segments_in_bounds (new_view example_file)).
  vm_compute. reflexivity.
Defined.

Lemma init_segments_disjoint_witness :
  exists header self',
    init (new_view example_file) = Some (true, self')
    /\ host_calls self'
       = host_calls (new_view example_file) ++ init_calls header
    /\ forall i j e1 e2 x,
         i <> j ->
         segment_extents (init_calls header) !! i = Some e1 ->
         segment_extents (init_calls header) !! j = Some e2 ->
         fst e1 <= x < fst e1 + snd e1 ->
         ~ (fst e2 <= x < fst e2 + snd e2).
Proof.
  apply (init_segments_disjoint (new_view example_file)).
  vm_compute. reflexivity.
Defined.

Lemma init_entry_point_executable_witness :
  exists entry self',
    init (new_view example_file) = Some (true, self')
    /\ perform_get_entry_point self' = Some entry
    /\ In (add_function entry) (host_calls self')
    /\ In (add_entry_point entry) (host_calls self')
    /\ exists start len off dlen flags,
         In (add_auto_segment start len off dlen flags) (host_calls self')
         /\ In SegmentExecutable flags
         /\ start <= entry < start + len.
Proof.
  apply (init_entry_point_executable (new_view example_file)).
  vm_compute. reflexivity.
Defined.

(** ** The two halves of the sweep that hold *)

(** X26: an obstacle that ends at or before [current_start] leaves the
    window and the emitted fragments as they are. *)
Theorem obstacle_before_window (w : Sweep) (c : Section) :
  0 <= size c ->
  current_start w <= current_end w ->
  address c + size c <= current_start w ->
  snd (sweep_step w c) = w.
Proof.
  exact (sweep_step_obstacle_before w c).
Qed.

Lemma obstacle_before_window_witness :
  snd (sweep_step (mkSweep 0x80003400 0x80003500 [])
                  (mkSection 0x100 0x80003100 0x200))
  = mkSweep 0x80003400 0x80003500 [].
Proof.
  apply (obstacle_before_window (mkSweep 0x80003400 0x80003500 [])
           (mkSection 0x100 0x80003100 0x200)); simpl; lia.
Defined.

(** X27: when no obstacle starts beyond the end of the nominal range,
    every fragment is a sub-interval of the nominal range. *)
Theorem carve_fragments_within (bssAddress bssSize : Z)
    (obstacles : list Section) :
  0 <= bssSize ->
  Forall (fun o => 0 <= size o) obstacles ->
  Forall (fun o => address o <= bssAddress + bssSize) obstacles ->
  Forall (within bssAddress (bssAddress + bssSize))
         (carve bssAddress bssSize obstacles).
Proof.
  exact (carve_within_nominal bssAddress bssSize obstacles).
Qed.

Lemma carve_fragments_within_witness :
  Forall (within 0 (0 + 200))
         (carve 0 200 [mkSection 1 150 100; mkSection 2 10 90]).
Proof.
  apply (carve_fragments_within 0 200
           [mkSection 1 150 100; mkSection 2 10 90]).
  - lia.
  - repeat constructor; simpl; lia.
  - repeat constructor; simpl; lia.
Defined.

Lemma parseHeader_raises_iff_short_witness :
  parseHeader [x00; x01; x02] = None.
Proof.
  apply (proj2 (parseHeader_raises_iff_short [x00; x01; x02])).
  simpl. lia.
Defined.
